(** * ParallelGroupBuilder (src/common/group_data.h)

    A shallow embedding of xgboost's multi-thread group builder and the
    properties of the four-phase protocol InitBudget / AddBudget /
    InitStorage / Push.

    Modelling choices.
    - [std::vector<T>] is a [list T]; positions, lengths and keys are
      [nat] (a vector never has [2^64] cells, so [key + 1] and
      [size() + 1] do not wrap for a key that a row can hold).
      [v.resize(n, x)] is stdpp's [resize n x v].
    - [SizeType] (default [bst_ulong]) and [std::size_t] are unsigned
      64-bit integers: values are [Z] and every addition of the source is
      followed by [wrap], reduction modulo [2^64].
    - Reading [v[i]] or [v.back()] outside the vector is undefined
      behaviour in C++; the operations that can do so return [option] and
      give [None] there.
    - The concurrent calls of phase 4 are modelled by an arbitrary
      interleaving: a list of [Push] calls, each tagged with its thread. *)

From Stdlib Require Import ZArith Lia.
From stdpp Require Import base tactics option numbers list.

(** ** Machine integers *)

(** Modelled from the spec: [bst_ulong], the default [SizeType], is
    declared in xgboost/base.h, which is not among the sources, and the
    spec only says that offsets and counts are non-negative integers. It
    is taken as an unsigned integer of 64 bits, the width of [std::size_t]
    in which the source keeps [count]. *)
Definition modulus : Z := (2 ^ 64)%Z.

Definition wrap (x : Z) : Z := (x `mod` modulus)%Z.

Definition in_range (x : Z) : Prop := (0 ≤ x < modulus)%Z.

(** [v.back()], undefined on an empty vector. *)
Definition back (v : list Z) : option Z := last v.

(** ** The builder *)

Section Builder.

Context {ValueType : Type}.
(** The value [ValueType()] that [data_.resize] fills new cells with. *)
Variable dflt : ValueType.

Record builder : Type := Builder {
  rptr_ : list Z;
  data_ : list ValueType;
  thread_rptr_ : list (list Z)
}.

(** step 1: [thread_rptr_.resize(nthread)], then every row is resized to
    [nkeys] and filled with zeros. *)
Definition InitBudget (nkeys nthread : nat) (b : builder) : builder :=
  Builder (rptr_ b) (data_ b)
    ((λ row, replicate (length (resize nkeys 0%Z row)) 0%Z)
       <$> resize nthread [] (thread_rptr_ b)).

(** step 2: [trptr.resize(key + 1, 0)] when the row is too short, then
    [trptr[key] += nelem]. *)
Definition grow_row (key : nat) (trptr : list Z) : list Z :=
  if decide (length trptr < key + 1) then resize (key + 1) 0%Z trptr else trptr.

Definition AddBudget (key threadid : nat) (nelem : Z) (b : builder)
  : option builder :=
  trptr ← thread_rptr_ b !! threadid;
  let trptr1 := grow_row key trptr in
  c ← trptr1 !! key;
  Some (Builder (rptr_ b) (data_ b)
          (<[threadid := <[key := wrap (c + nelem)]> trptr1]> (thread_rptr_ b))).

(** step 3, first loop: [rptr_] is grown to the widest row plus one. *)
Definition grow_rptr (fill : Z) (rptr : list Z) (rows : list (list Z))
  : list Z :=
  foldl (λ r trptr,
           if decide (length r ≤ length trptr)
           then resize (length trptr + 1) fill r else r)
        rptr rows.

(** step 3, inner loop over the threads for key [i]: the budget cell
    becomes the cursor [count + rptr_.back()] and [count] advances by the
    budget. [base] is the value read from [rptr_.back()]. *)
Fixpoint assign_row (i : nat) (base : Z) (rows : list (list Z)) (count : Z)
  : list (list Z) * Z :=
  match rows with
  | [] => ([], count)
  | trptr :: rest =>
      match trptr !! i with
      | Some thread_count =>
          let '(rest', count') :=
            assign_row i base rest (wrap (count + thread_count)) in
          (<[i := wrap (count + base)]> trptr :: rest', count')
      | None =>
          let '(rest', count') := assign_row i base rest count in
          (trptr :: rest', count')
      end
  end.

(** One iteration of the outer loop: the inner loop, then
    [rptr_[i + 1] += count]. The loop only runs with [i + 1 < rptr_.size()],
    so both reads are defined; the defaults are never used. *)
Definition storage_step (s : list Z * list (list Z) * Z) (i : nat)
  : list Z * list (list Z) * Z :=
  let '(rptr, rows, count) := s in
  let '(rows', count') := assign_row i (default 0%Z (back rptr)) rows count in
  (<[S i := wrap (default 0%Z (rptr !! S i) + count')]> rptr, rows', count').

Definition storage_loop (rptr : list Z) (rows : list (list Z))
  : list Z * list (list Z) * Z :=
  foldl storage_step (rptr, rows, 0%Z) (seq 0 (length rptr - 1)).

Definition InitStorage (b : builder) : option builder :=
  let rptr_fill_value := default 0%Z (back (rptr_ b)) in
  let rptr1 := grow_rptr rptr_fill_value (rptr_ b) (thread_rptr_ b) in
  let '(rptr2, rows2, _) := storage_loop rptr1 (thread_rptr_ b) in
  n ← back rptr2;
  Some (Builder rptr2 (resize (Z.to_nat n) dflt (data_ b)) rows2).

(** step 4: [rp = thread_rptr_[threadid][key]; data_[rp++] = value]. *)
Definition push_slot (key threadid : nat) (b : builder) : option nat :=
  trptr ← thread_rptr_ b !! threadid;
  rp ← trptr !! key;
  if decide (Z.to_nat rp < length (data_ b)) then Some (Z.to_nat rp) else None.

Definition Push (key : nat) (value : ValueType) (threadid : nat) (b : builder)
  : option builder :=
  trptr ← thread_rptr_ b !! threadid;
  rp ← trptr !! key;
  if decide (Z.to_nat rp < length (data_ b)) then
    Some (Builder (rptr_ b)
            (<[Z.to_nat rp := value]> (data_ b))
            (<[threadid := <[key := wrap (rp + 1)]> trptr]> (thread_rptr_ b)))
  else None.

(** *** Driving the phases

    A budget call is [(key, threadid, nelem)], a push call is
    [(key, value, threadid)]. The calls of all threads are taken in one
    list, in the order in which they happen to be executed. *)

Definition budget_call : Type := nat * nat * Z.
Definition push_call : Type := nat * ValueType * nat.

Fixpoint add_budgets (calls : list budget_call) (b : builder) : option builder :=
  match calls with
  | [] => Some b
  | (key, threadid, nelem) :: rest =>
      b' ← AddBudget key threadid nelem b; add_budgets rest b'
  end.

Fixpoint push_all (calls : list push_call) (b : builder) : option builder :=
  match calls with
  | [] => Some b
  | (key, value, threadid) :: rest =>
      b' ← Push key value threadid b; push_all rest b'
  end.

(** The instrumented run: the index of [data_] written by each call. *)
Fixpoint push_slots (calls : list push_call) (b : builder) : option (list nat) :=
  match calls with
  | [] => Some []
  | (key, value, threadid) :: rest =>
      p ← push_slot key threadid b;
      b' ← Push key value threadid b;
      ps ← push_slots rest b';
      Some (p :: ps)
  end.

(** The values thread [t] pushes with key [k], in the order of its calls. *)
Fixpoint pushed (t k : nat) (calls : list push_call) : list ValueType :=
  match calls with
  | [] => []
  | (key, value, threadid) :: rest =>
      if decide (key = k ∧ threadid = t)
      then value :: pushed t k rest else pushed t k rest
  end.

(** All the values pushed with key [k], whatever the thread. *)
Fixpoint pushed_key (k : nat) (calls : list push_call) : list ValueType :=
  match calls with
  | [] => []
  | (key, value, threadid) :: rest =>
      if decide (key = k) then value :: pushed_key k rest else pushed_key k rest
  end.

(** [data[lo:hi]] *)
Definition slice (lo hi : nat) (data : list ValueType) : list ValueType :=
  take (hi - lo) (drop lo data).

(** The cursor of thread [t] for key [k], where the table has one. *)
Definition cursor (b : builder) (t k : nat) : option Z :=
  thread_rptr_ b !! t ≫= (.!! k).

(** The segment of key [k]: [data[ptr[k]:ptr[k+1]]]. *)
Definition segment (b : builder) (k : nat) : option (list ValueType) :=
  lo ← rptr_ b !! k;
  hi ← rptr_ b !! S k;
  Some (slice (Z.to_nat lo) (Z.to_nat hi) (data_ b)).

(** The four phases of one build on the builder [b]. *)
Definition build (nkeys nthread : nat) (budgets : list budget_call)
    (pushes : list push_call) (b : builder) : option builder :=
  b2 ← add_budgets budgets (InitBudget nkeys nthread b);
  b3 ← InitStorage b2;
  push_all pushes b3.

End Builder.

Arguments builder : clear implicits.
Arguments Builder {ValueType} _ _ _.
Arguments push_call : clear implicits.

(** ** Budgets as numbers

    The table of phase 2 read as a function: [budget rows t k] is the
    counter of thread [t] for key [k], zero where the row has no cell. *)

Definition cell (row : list Z) (k : nat) : Z := default 0%Z (row !! k).

Definition budget (rows : list (list Z)) (t k : nat) : Z :=
  cell (default [] (rows !! t)) k.

Definition column (rows : list (list Z)) (k : nat) : list Z :=
  (λ row, cell row k) <$> rows.

Fixpoint sumZ (l : list Z) : Z :=
  match l with [] => 0%Z | x :: l' => (x + sumZ l')%Z end.

(** Budget of all threads for key [k]. *)
Definition key_total (rows : list (list Z)) (k : nat) : Z :=
  sumZ (column rows k).

(** Budget of all threads for the keys below [k]. *)
Fixpoint cum (rows : list (list Z)) (k : nat) : Z :=
  match k with
  | O => 0%Z
  | S j => (cum rows j + key_total rows j)%Z
  end.

(** Budget that precedes the pair (thread [t], key [k]) in the order of
    the two loops of step 3: all the keys below [k], then the threads
    below [t] for key [k]. *)
Definition start (rows : list (list Z)) (t k : nat) : Z :=
  (cum rows k + sumZ (take t (column rows k)))%Z.

Definition width (rows : list (list Z)) : nat := max_list (length <$> rows).

Definition total (rows : list (list Z)) : Z := cum rows (width rows).

(** The tables after the first [n] iterations of the outer loop. *)
Definition cursor_cell (rows : list (list Z)) (base : Z) (n t k : nat) (c : Z)
  : Z :=
  if decide (k < n) then wrap (start rows t k + base) else c.

Definition cursors_upto (n : nat) (base : Z) (rows : list (list Z))
  : list (list Z) :=
  imap (λ t row, imap (cursor_cell rows base n t) row) rows.

Definition offset_cell (rows : list (list Z)) (n j : nat) (p : Z) : Z :=
  if decide (1 ≤ j ≤ n) then wrap (p + cum rows j) else p.

Definition offsets_upto (n : nat) (rptr : list Z) (rows : list (list Z))
  : list Z :=
  imap (offset_cell rows n) rptr.

(** The tables when the loop ends. *)
Definition final_offsets (rptr : list Z) (rows : list (list Z)) : list Z :=
  let rptr1 := grow_rptr (default 0%Z (back rptr)) rptr rows in
  offsets_upto (length rptr1 - 1) rptr1 rows.

Definition final_cursors (rptr : list Z) (rows : list (list Z))
  : list (list Z) :=
  let rptr1 := grow_rptr (default 0%Z (back rptr)) rptr rows in
  cursors_upto (length rptr1 - 1) (default 0%Z (back rptr)) rows.

(** The cursor of every pair is the start of its range, shifted by the
    length [base] of what was stored before. *)
Definition cursor_table (base : Z) (rows : list (list Z)) : list (list Z) :=
  imap (λ t row, imap (λ k _, wrap (start rows t k + base)) row) rows.

(** The length of [data_] that the budgets ask for is a value of the
    integer type. *)
Definition fits (rptr : list Z) (rows : list (list Z)) : Prop :=
  (default 0 (back rptr) + total rows < modulus)%Z.


(** The cursors in the middle of phase 4, when the calls [done] have been
    executed: each has advanced by the number of values written. *)
Definition cursors_after {ValueType : Type} (rows : list (list Z)) (base : Z)
    (done : list (push_call ValueType)) : list (list Z) :=
  imap (λ t row,
          imap (λ k _, wrap (start rows t k + base
                             + Z.of_nat (length (pushed t k done)))) row)
       rows.

(** The cell the [j]-th value of the pair (thread [t], key [k]) goes to. *)
Definition slot_of (rows : list (list Z)) (base : Z) (t k j : nat) : nat :=
  Z.to_nat (base + start rows t k + Z.of_nat j).

(** The builder in the middle of phase 4: cursors advanced, every value
    written so far in its cell. *)
Definition filled {ValueType : Type} (rows : list (list Z)) (base : Z)
    (done : list (push_call ValueType)) (b : builder ValueType) : Prop :=
  thread_rptr_ b = cursors_after rows base done
  ∧ length (data_ b) = Z.to_nat (base + total rows)
  ∧ ∀ t k j v, pushed t k done !! j = Some v →
               data_ b !! slot_of rows base t k j = Some v.

(** Budget conservation: every thread pushes for every key as many values
    as the counter of phase 2 says. *)
Definition conserved {ValueType : Type} (rows : list (list Z))
    (calls : list (push_call ValueType)) : Prop :=
  ∀ t k, Z.of_nat (length (pushed t k calls)) = budget rows t k.

(** The values of key [k] thread by thread, for the threads below [n]. *)
Definition blocks {ValueType : Type} (n k : nat)
    (calls : list (push_call ValueType)) : list (list ValueType) :=
  (λ t, pushed t k calls) <$> seq 0 n.

(** The data of a fresh build, written out: key after key, and for each
    key thread after thread. *)
Definition grouped {ValueType : Type} (nthread nkeys : nat)
    (calls : list (push_call ValueType)) : list ValueType :=
  concat ((λ k, concat (blocks nthread k calls)) <$> seq 0 nkeys).

(** A builder on empty [ptr] and [data]; the table passed to the
    constructor may hold anything. *)
Definition fresh {ValueType : Type} (rows0 : list (list Z)) : builder ValueType :=
  Builder [] [] rows0.

(** The example of two threads: thread 0 sees [(key 1, 10)] then
    [(key 0, 11)], thread 1 sees [(key 1, 20)]. *)
Definition example_budgets : list (nat * nat * Z) :=
  [(1, 0, 1%Z); (0, 0, 1%Z); (1, 1, 1%Z)].
Definition example_pushes : list (push_call Z) :=
  [(1, 10%Z, 0); (1, 20%Z, 1); (0, 11%Z, 0)].

(** Two builds in a row on the same arrays: a fresh build on one thread
    with the budgets [{0:1, 1:1}] and the pushes [(0,a)], [(1,b)], then a
    build with the budget [{0:1}] and the push [(0,c)]. *)
Definition first_build {ValueType : Type} (dflt a b : ValueType) (nkeys : nat)
  : option (builder ValueType) :=
  build dflt nkeys 1 [(0, 0, 1%Z); (1, 0, 1%Z)] [(0, a, 0); (1, b, 0)] (fresh []).

Definition second_build {ValueType : Type} (dflt c : ValueType) (nkeys : nat)
    (b1 : builder ValueType) : option (builder ValueType) :=
  build dflt nkeys 1 [(0, 0, 1%Z)] [(0, c, 0)] b1.

(** The second build up to step 3. *)
Definition second_storage {ValueType : Type} (dflt : ValueType) (nkeys : nat)
    (b1 : builder ValueType) : option (builder ValueType) :=
  add_budgets [(0, 0, 1%Z)] (InitBudget nkeys 1 b1) ≫= InitStorage dflt.

(** Arrays of a previous build with five values under one key, and a
    budget of [2^64 - 1] declared on them. *)
Definition five_values : builder Z :=
  Builder [0; 5]%Z [1; 2; 3; 4; 5]%Z [].

Definition huge_budget : option (builder Z) :=
  AddBudget 0 0 (modulus - 1) (InitBudget 0 1 five_values).

(** Values of the integer type, in a vector and in a table. *)
Definition cells_in_range (l : list Z) : Prop := Forall in_range l.
Definition table_in_range (rows : list (list Z)) : Prop :=
  Forall cells_in_range rows.

(** [ptr] is non-decreasing. *)
Definition nondecreasing (l : list Z) : Prop :=
  ∀ i j x y, i ≤ j → l !! i = Some x → l !! j = Some y → (x ≤ y)%Z.

(** The arrays after the first build of the append scenario, with a
    budget of one value declared for key 0. *)
Definition appended : builder Z :=
  Builder [0; 1; 2]%Z [100; 200]%Z [[1%Z]].

(** Budgets whose sums do not fit the integer type: one thread that
    declares [2^64 - 1] values for key 0 and two for key 1, and two
    threads that declare [2^63] values each for key 0. *)
Definition wrapped_offsets : option (builder Z) :=
  add_budgets [(0, 0, (modulus - 1)%Z); (1, 0, 2%Z)] (InitBudget 0 1 (fresh []))
  ≫= InitStorage 0%Z.

Definition wrapped_ranges : option (builder Z) :=
  add_budgets [(0, 0, (2 ^ 63)%Z); (0, 1, (2 ^ 63)%Z)] (InitBudget 0 2 (fresh []))
  ≫= InitStorage 0%Z.

(** A builder on which [Push] cannot wrap a cursor around: the cursors are
    values of the integer type and so is the length of [data]. *)
Definition sane {ValueType : Type} (b : builder ValueType) : Prop :=
  table_in_range (thread_rptr_ b) ∧ (Z.of_nat (length (data_ b)) < modulus)%Z.

(** The row of a thread after [AddBudget(key, _, nelem)]: grown, then
    [trptr[key] += nelem]. *)
Definition bump (key : nat) (nelem : Z) (row : list Z) : list Z :=
  <[key := wrap (cell row key + nelem)]> (grow_row key row).

(** One more than the largest key of the calls of phase 2, zero when there
    is no call. *)
Definition key_span (calls : list budget_call) : nat :=
  max_list ((λ c : budget_call, c.1.1 + 1) <$> calls).

(** The threads that make the calls of a list. *)
Definition callers {ValueType : Type} (calls : list (push_call ValueType))
  : list nat :=
  (λ c : push_call ValueType, c.2) <$> calls.

(** Arrays of a previous build with two keys, on which a build for the
    new key 2 is started. *)
Definition two_keys : builder Z :=
  Builder [0; 1; 2]%Z [100; 200]%Z [].

(** The values of a list of [Push] calls, in the order of the calls. *)
Definition values {ValueType : Type} (calls : list (push_call ValueType))
  : list ValueType :=
  (λ c : push_call ValueType, c.1.2) <$> calls.

(** ** Arithmetic modulo [2^64] *)

Lemma modulus_pos : (0 < modulus)%Z.
Proof. reflexivity. Qed.

Lemma wrap_in_range x : in_range (wrap x).
Proof. unfold in_range, wrap. apply Z.mod_pos_bound, modulus_pos. Qed.

Lemma wrap_small x : in_range x → wrap x = x.
Proof. unfold in_range, wrap. intros. by apply Z.mod_small. Qed.

Lemma wrap_wrap_l a b : wrap (wrap a + b) = wrap (a + b).
Proof. unfold wrap. by rewrite Zplus_mod_idemp_l. Qed.

Lemma wrap_wrap_r a b : wrap (a + wrap b) = wrap (a + b).
Proof. unfold wrap. by rewrite Zplus_mod_idemp_r. Qed.

Lemma wrap_add_cong a b c : wrap a = wrap b → wrap (a + c) = wrap (b + c).
Proof. intros H. by rewrite <-(wrap_wrap_l a), H, wrap_wrap_l. Qed.

(** ** Sums of budgets *)

Lemma sumZ_app l1 l2 : sumZ (l1 ++ l2) = (sumZ l1 + sumZ l2)%Z.
Proof. induction l1 as [|x l1 IH]; simpl; lia. Qed.

Lemma sumZ_nonneg l : Forall (λ x, 0 ≤ x)%Z l → (0 ≤ sumZ l)%Z.
Proof. induction 1; simpl; lia. Qed.

Lemma sumZ_take_S (l : list Z) t :
  sumZ (take (S t) l) = (sumZ (take t l) + default 0 (l !! t))%Z.
Proof.
  revert t. induction l as [|x l IH]; intros [|t]; simpl; try lia.
  rewrite IH. lia.
Qed.

Lemma sumZ_take_mono (l : list Z) t t' :
  Forall (λ x, 0 ≤ x)%Z l → t ≤ t' → (sumZ (take t l) ≤ sumZ (take t' l))%Z.
Proof.
  intros Hl. induction 1 as [|t' _ IH]; [lia|].
  rewrite sumZ_take_S. etrans; [apply IH|].
  destruct (l !! t') as [x|] eqn:E; simpl; [|lia].
  eapply Forall_lookup_1 in E; [|done]. simpl in E. lia.
Qed.

Lemma sumZ_take_le (l : list Z) t :
  Forall (λ x, 0 ≤ x)%Z l → (sumZ (take t l) ≤ sumZ l)%Z.
Proof.
  intros Hl. destruct (decide (t ≤ length l)).
  - rewrite <-(firstn_all l) at 2. by apply sumZ_take_mono.
  - rewrite take_ge by lia. lia.
Qed.

(** ** Step 3, the inner loop *)

Lemma column_cons row rows k : column (row :: rows) k = cell row k :: column rows k.
Proof. done. Qed.

Lemma length_column rows k : length (column rows k) = length rows.
Proof. unfold column. by rewrite length_fmap. Qed.

Lemma lookup_column rows k t :
  column rows k !! t = (λ row, cell row k) <$> rows !! t.
Proof. unfold column. by rewrite list_lookup_fmap. Qed.

Lemma budget_column rows t k : budget rows t k = default 0%Z (column rows k !! t).
Proof.
  rewrite lookup_column. unfold budget.
  destruct (rows !! t); simpl; [done|]. by unfold cell.
Qed.

Lemma assign_row_rows i base rows count :
  (assign_row i base rows count).1 =
  imap (λ t row, <[i := wrap (count + sumZ (take t (column rows i)) + base)]> row)
       rows.
Proof.
  revert count. induction rows as [|trptr rest IH]; intros count; [done|].
  simpl. destruct (trptr !! i) as [c|] eqn:E.
  - specialize (IH (wrap (count + c))).
    destruct (assign_row i base rest (wrap (count + c))) as [rest' count'].
    simpl in *. f_equal.
    + by rewrite Z.add_0_r.
    + rewrite IH. apply imap_ext. intros t row _. simpl.
      unfold cell at 1. rewrite E. simpl. f_equal.
      rewrite <-!Z.add_assoc, wrap_wrap_l. f_equal. lia.
  - specialize (IH count).
    destruct (assign_row i base rest count) as [rest' count'].
    simpl in *. f_equal.
    + symmetry. apply list_insert_ge. by apply lookup_ge_None.
    + rewrite IH. apply imap_ext. intros t row _. simpl.
      unfold cell at 1. rewrite E. simpl. f_equal; f_equal; lia.
Qed.

Lemma assign_row_count i base rows count :
  wrap (assign_row i base rows count).2 = wrap (count + key_total rows i).
Proof.
  unfold key_total.
  revert count. induction rows as [|trptr rest IH]; intros count.
  - simpl. by rewrite Z.add_0_r.
  - simpl. unfold cell at 1. destruct (trptr !! i) as [c|] eqn:E.
    + specialize (IH (wrap (count + c))).
      destruct (assign_row i base rest (wrap (count + c))) as [rest' count'].
      simpl in *. rewrite IH, wrap_wrap_l. f_equal. lia.
    + specialize (IH count).
      destruct (assign_row i base rest count) as [rest' count'].
      simpl in *. rewrite IH. f_equal.
Qed.

(** ** Step 3, the outer loop *)

Lemma length_cursors_upto n base rows :
  length (cursors_upto n base rows) = length rows.
Proof. unfold cursors_upto. by rewrite length_imap. Qed.

Lemma lookup_cursors_upto n base rows t :
  cursors_upto n base rows !! t =
  (λ row, imap (cursor_cell rows base n t) row) <$> rows !! t.
Proof. unfold cursors_upto. by rewrite list_lookup_imap. Qed.

(** The cells of column [n] still hold the budgets after [n] iterations. *)
Lemma column_cursors_upto n base rows :
  column (cursors_upto n base rows) n = column rows n.
Proof.
  apply list_eq. intros t. rewrite !lookup_column, lookup_cursors_upto.
  destruct (rows !! t) as [row|]; [|done]. simpl. f_equal.
  unfold cell. rewrite list_lookup_imap.
  destruct (row !! n) as [c|]; [|done]. simpl.
  unfold cursor_cell. by rewrite decide_False by lia.
Qed.

Lemma length_offsets_upto n rptr rows :
  length (offsets_upto n rptr rows) = length rptr.
Proof. unfold offsets_upto. by rewrite length_imap. Qed.

Lemma lookup_offsets_upto n rptr rows j :
  offsets_upto n rptr rows !! j = offset_cell rows n j <$> rptr !! j.
Proof. unfold offsets_upto. by rewrite list_lookup_imap. Qed.

Lemma back_offsets_upto n rptr rows :
  n + 1 < length rptr → back (offsets_upto n rptr rows) = back rptr.
Proof.
  intros Hn. unfold back.
  rewrite !last_lookup, length_offsets_upto, lookup_offsets_upto.
  destruct (rptr !! pred (length rptr)) as [p|]; [|done]. simpl.
  unfold offset_cell. by rewrite decide_False by lia.
Qed.

Lemma storage_step_upto n rptr rows count :
  n + 1 < length rptr →
  wrap count = wrap (cum rows n) →
  ∃ count',
    storage_step (offsets_upto n rptr rows,
                  cursors_upto n (default 0%Z (back rptr)) rows, count) n
    = (offsets_upto (S n) rptr rows,
       cursors_upto (S n) (default 0%Z (back rptr)) rows, count')
    ∧ wrap count' = wrap (cum rows (S n)).
Proof.
  intros Hn Hc. unfold storage_step.
  rewrite back_offsets_upto by done.
  set (base := default 0%Z (back rptr)).
  pose proof (assign_row_rows n base (cursors_upto n base rows) count) as Hr.
  pose proof (assign_row_count n base (cursors_upto n base rows) count) as Hk.
  destruct (assign_row n base (cursors_upto n base rows) count) as [rows' count'].
  simpl in Hr, Hk. exists count'.
  assert (Hcount : wrap count' = wrap (cum rows (S n))).
  { rewrite Hk. unfold key_total. rewrite column_cursors_upto. simpl.
    by apply wrap_add_cong. }
  split; [|done].
  cut (<[S n := wrap (default 0%Z (offsets_upto n rptr rows !! S n) + count')]>
         (offsets_upto n rptr rows) = offsets_upto (S n) rptr rows
       ∧ rows' = cursors_upto (S n) base rows).
  { by intros [-> ->]. }
  split.
  - apply list_eq. intros j.
    rewrite list_lookup_insert, !lookup_offsets_upto, length_offsets_upto.
    destruct (decide (S n = j ∧ S n < length rptr)) as [[<- ?]|Hne].
    + destruct (lookup_lt_is_Some_2 rptr (S n)) as [p Hp]; [lia|].
      rewrite Hp. simpl. f_equal. unfold offset_cell.
      rewrite decide_False, decide_True by lia.
      rewrite <-wrap_wrap_r, Hcount, wrap_wrap_r. done.
    + destruct (rptr !! j) as [p|]; [|done]. simpl. f_equal.
      unfold offset_cell. repeat case_decide; try done; lia.
  - rewrite Hr. apply list_eq. intros t.
    rewrite list_lookup_imap, !lookup_cursors_upto.
    destruct (rows !! t) as [row|]; [|done]. simpl. f_equal.
    rewrite column_cursors_upto.
    apply list_eq. intros k.
    rewrite list_lookup_insert, !list_lookup_imap, length_imap.
    destruct (decide (n = k ∧ n < length row)) as [[<- ?]|Hne].
    + destruct (lookup_lt_is_Some_2 row n) as [c Hc']; [lia|].
      rewrite Hc'. simpl. f_equal. unfold cursor_cell.
      rewrite decide_True by lia. unfold start.
      rewrite <-!Z.add_assoc. by apply wrap_add_cong.
    + destruct (row !! k) as [c|] eqn:Hk'; [|done]. simpl. f_equal.
      apply lookup_lt_Some in Hk'.
      unfold cursor_cell. repeat case_decide; try done; lia.
Qed.

Lemma storage_loop_upto n rptr rows :
  n ≤ length rptr - 1 →
  ∃ count,
    foldl storage_step (rptr, rows, 0%Z) (seq 0 n)
    = (offsets_upto n rptr rows,
       cursors_upto n (default 0%Z (back rptr)) rows, count)
    ∧ wrap count = wrap (cum rows n).
Proof.
  induction n as [|n IH]; intros Hn.
  - exists 0%Z. split; [|done]. simpl.
    cut (rptr = offsets_upto 0 rptr rows
         ∧ rows = cursors_upto 0 (default 0%Z (back rptr)) rows).
    { by intros [<- <-]. }
    split.
    + apply list_eq. intros j. rewrite lookup_offsets_upto.
      destruct (rptr !! j); [|done]. simpl. unfold offset_cell.
      by rewrite decide_False by lia.
    + apply list_eq. intros t. rewrite lookup_cursors_upto.
      destruct (rows !! t) as [row|]; [|done]. simpl. f_equal.
      apply list_eq. intros k. rewrite list_lookup_imap.
      destruct (row !! k); [|done]. simpl. unfold cursor_cell.
      by rewrite decide_False by lia.
  - destruct IH as (count & Hloop & Hc); [lia|].
    rewrite seq_S, foldl_snoc, Hloop. simpl.
    apply storage_step_upto; [lia|done].
Qed.

(** ** Step 3, growing [rptr_] *)

Lemma grow_rptr_app fill rptr rows :
  ∃ m, grow_rptr fill rptr rows = rptr ++ replicate m fill.
Proof.
  unfold grow_rptr. revert rptr.
  induction rows as [|trptr rest IH]; intros rptr; simpl.
  - exists 0. by rewrite app_nil_r.
  - case_decide as Hlen.
    + destruct (IH (resize (length trptr + 1) fill rptr)) as [m ->].
      rewrite resize_ge by lia. rewrite <-app_assoc, <-replicate_add. eauto.
    + apply IH.
Qed.

Lemma grow_rptr_covers fill rptr rows trptr :
  trptr ∈ rows → length trptr + 1 ≤ length (grow_rptr fill rptr rows).
Proof.
  unfold grow_rptr. revert rptr.
  induction rows as [|row rest IH]; intros rptr Hin; [by apply elem_of_nil in Hin|].
  apply elem_of_cons in Hin as [->|Hin]; [|by apply IH].
  simpl.
  match goal with |- _ ≤ length (foldl ?f ?r rest) =>
    destruct (grow_rptr_app fill r rest) as [m Hm]; unfold grow_rptr in Hm;
    rewrite Hm end.
  rewrite length_app. case_decide; [rewrite length_resize|]; lia.
Qed.

Lemma grow_rptr_length_ge fill rptr rows :
  length rptr ≤ length (grow_rptr fill rptr rows).
Proof.
  destruct (grow_rptr_app fill rptr rows) as [m ->]. rewrite length_app. lia.
Qed.

Lemma grow_rptr_width fill rptr rows :
  rows ≠ [] → width rows + 1 ≤ length (grow_rptr fill rptr rows).
Proof.
  intros Hne. unfold width.
  assert (Hin : max_list (length <$> rows) ∈ length <$> rows).
  { apply max_list_elem_of. by destruct rows. }
  apply list_elem_of_fmap in Hin as (row & -> & Hin).
  by apply grow_rptr_covers.
Qed.

Lemma grow_rptr_nonempty fill rptr rows :
  rptr ≠ [] ∨ rows ≠ [] → grow_rptr fill rptr rows ≠ [].
Proof.
  intros [H|H] Hnil.
  - pose proof (grow_rptr_length_ge fill rptr rows) as Hl.
    rewrite Hnil in Hl. destruct rptr; [done|simpl in Hl; lia].
  - pose proof (grow_rptr_width fill rptr rows H) as Hl.
    rewrite Hnil in Hl. simpl in Hl. lia.
Qed.

Lemma last_replicate_S (m : nat) (x : Z) : last (replicate (S m) x) = Some x.
Proof. induction m as [|m IH]; [done|]. by rewrite replicate_S, last_cons, IH. Qed.

(** The value read by [rptr_.back()] during the loop is the fill value
    computed before it. *)
Lemma back_grow_rptr rptr rows :
  default 0%Z (back (grow_rptr (default 0%Z (back rptr)) rptr rows))
  = default 0%Z (back rptr).
Proof.
  destruct (grow_rptr_app (default 0%Z (back rptr)) rptr rows) as [m ->].
  unfold back. rewrite last_app. destruct m as [|m].
  - done.
  - by rewrite last_replicate_S.
Qed.

Lemma lookup_grow_rptr_old fill rptr rows j :
  j < length rptr → grow_rptr fill rptr rows !! j = rptr !! j.
Proof.
  intros Hj. destruct (grow_rptr_app fill rptr rows) as [m ->].
  by rewrite lookup_app_l.
Qed.

Lemma lookup_grow_rptr_new fill rptr rows j :
  length rptr ≤ j → j < length (grow_rptr fill rptr rows) →
  grow_rptr fill rptr rows !! j = Some fill.
Proof.
  destruct (grow_rptr_app fill rptr rows) as [m ->].
  rewrite length_app, length_replicate. intros ??.
  rewrite lookup_app_r by lia. apply lookup_replicate_2. lia.
Qed.

(** ** Sums over the keys *)

Lemma column_nonneg rows k :
  table_in_range rows → Forall (λ x, 0 ≤ x)%Z (column rows k).
Proof.
  intros Hrows. unfold column. apply Forall_fmap, Forall_forall.
  intros row Hin. simpl. unfold cell.
  destruct (row !! k) as [c|] eqn:E; simpl; [|lia].
  eapply Forall_forall in Hrows; [|done].
  eapply Forall_lookup_1 in Hrows; [|done]. unfold in_range in Hrows. lia.
Qed.

Lemma key_total_nonneg rows k : table_in_range rows → (0 ≤ key_total rows k)%Z.
Proof. intros. by apply sumZ_nonneg, column_nonneg. Qed.

Lemma cum_mono rows k k' :
  table_in_range rows → k ≤ k' → (cum rows k ≤ cum rows k')%Z.
Proof.
  intros Hrows. induction 1 as [|k' _ IH]; [lia|].
  simpl. pose proof (key_total_nonneg rows k' Hrows). lia.
Qed.

Lemma cell_ge row k : length row ≤ k → cell row k = 0%Z.
Proof. intros H. unfold cell. by rewrite lookup_ge_None_2. Qed.

Lemma length_le_width rows t row : rows !! t = Some row → length row ≤ width rows.
Proof.
  intros H. unfold width. apply max_list_elem_of_le.
  apply list_elem_of_fmap. exists row. split; [done|].
  by eapply list_elem_of_lookup_2.
Qed.

Lemma key_total_ge_width rows k : width rows ≤ k → key_total rows k = 0%Z.
Proof.
  intros Hk. unfold key_total.
  assert (Hz : Forall (λ x, x = 0%Z) (column rows k)).
  { unfold column. apply Forall_fmap, Forall_lookup. intros t row Ht. simpl.
    apply cell_ge. apply length_le_width in Ht. lia. }
  induction Hz as [|x l -> _ IH]; simpl; [done|]. by rewrite IH.
Qed.

Lemma cum_ge_width rows k : width rows ≤ k → cum rows k = total rows.
Proof.
  unfold total. induction 1 as [|k Hk IH]; [done|].
  simpl. rewrite IH, key_total_ge_width; [lia|done].
Qed.

Lemma cum_le_total rows k : table_in_range rows → (cum rows k ≤ total rows)%Z.
Proof.
  intros Hrows. destruct (decide (k ≤ width rows)).
  - by apply cum_mono.
  - rewrite cum_ge_width; [lia|lia].
Qed.

Lemma cum_nonneg rows k : table_in_range rows → (0 ≤ cum rows k)%Z.
Proof. intros. change 0%Z with (cum rows 0). apply cum_mono; [done|lia]. Qed.

(** The range of (thread [t], key [k]) starts at [start rows t k] and has
    [budget rows t k] cells; ranges follow each other in the order of the
    loops. *)
Lemma start_nonneg rows t k : table_in_range rows → (0 ≤ start rows t k)%Z.
Proof.
  intros Hrows. unfold start. pose proof (cum_nonneg rows k Hrows).
  pose proof (sumZ_nonneg (take t (column rows k))
                (Forall_take _ _ _ (column_nonneg rows k Hrows))). lia.
Qed.

Lemma budget_nonneg rows t k : table_in_range rows → (0 ≤ budget rows t k)%Z.
Proof.
  intros Hrows. rewrite budget_column.
  destruct (column rows k !! t) as [c|] eqn:E; simpl; [|lia].
  by eapply (Forall_lookup_1 _ _ _ _ (column_nonneg rows k Hrows)) in E.
Qed.

Lemma start_next_thread rows t k :
  start rows (S t) k = (start rows t k + budget rows t k)%Z.
Proof. unfold start. rewrite sumZ_take_S, budget_column. lia. Qed.

Lemma start_thread_mono rows t t' k :
  table_in_range rows → t ≤ t' → (start rows t k ≤ start rows t' k)%Z.
Proof.
  intros Hrows Ht. unfold start.
  pose proof (sumZ_take_mono (column rows k) t t' (column_nonneg rows k Hrows) Ht).
  lia.
Qed.

Lemma start_end_le_cum rows t k :
  table_in_range rows → (start rows t k + budget rows t k ≤ cum rows (S k))%Z.
Proof.
  intros Hrows. rewrite <-start_next_thread. unfold start. simpl.
  pose proof (sumZ_take_le (column rows k) (S t) (column_nonneg rows k Hrows)).
  unfold key_total. lia.
Qed.

Lemma start_ge_cum rows t k : table_in_range rows → (cum rows k ≤ start rows t k)%Z.
Proof.
  intros Hrows. unfold start.
  pose proof (sumZ_nonneg (take t (column rows k))
                (Forall_take _ _ _ (column_nonneg rows k Hrows))). lia.
Qed.

Lemma start_end_le_total rows t k :
  table_in_range rows → (start rows t k + budget rows t k ≤ total rows)%Z.
Proof.
  intros Hrows. etrans; [by apply start_end_le_cum|]. by apply cum_le_total.
Qed.

(** Two different pairs have disjoint ranges. *)
Lemma ranges_ordered rows t k t' k' :
  table_in_range rows →
  k < k' ∨ (k = k' ∧ t < t') →
  (start rows t k + budget rows t k ≤ start rows t' k')%Z.
Proof.
  intros Hrows [Hk|[<- Ht]].
  - etrans; [by apply start_end_le_cum|].
    etrans; [|by apply start_ge_cum]. apply cum_mono; [done|lia].
  - rewrite <-start_next_thread. apply start_thread_mono; [done|lia].
Qed.

Lemma ranges_disjoint rows t k t' k' :
  table_in_range rows →
  (t, k) ≠ (t', k') →
  (start rows t k + budget rows t k ≤ start rows t' k')%Z
  ∨ (start rows t' k' + budget rows t' k' ≤ start rows t k)%Z.
Proof.
  intros Hrows Hne.
  destruct (lt_eq_lt_dec k k') as [[?| ->]|?].
  - left. apply ranges_ordered; auto.
  - destruct (lt_eq_lt_dec t t') as [[?| ->]|?]; [| done |].
    + left. apply ranges_ordered; auto.
    + right. apply ranges_ordered; auto.
  - right. apply ranges_ordered; auto.
Qed.

(** ** Step 3 as a whole *)

Section Storage.

Context {ValueType : Type}.
Variable dflt : ValueType.
Implicit Types b : builder ValueType.

Lemma InitStorage_eq b :
  rptr_ b ≠ [] ∨ thread_rptr_ b ≠ [] →
  InitStorage dflt b =
  Some (Builder (final_offsets (rptr_ b) (thread_rptr_ b))
          (resize (Z.to_nat (default 0%Z
                     (back (final_offsets (rptr_ b) (thread_rptr_ b)))))
                  dflt (data_ b))
          (final_cursors (rptr_ b) (thread_rptr_ b))).
Proof.
  intros Hne. unfold InitStorage, storage_loop, final_offsets, final_cursors.
  set (base := default 0%Z (back (rptr_ b))).
  set (rptr1 := grow_rptr base (rptr_ b) (thread_rptr_ b)).
  destruct (storage_loop_upto (length rptr1 - 1) rptr1 (thread_rptr_ b))
    as (count & -> & _); [done|].
  assert (Hb : default 0%Z (back rptr1) = base) by apply back_grow_rptr.
  rewrite Hb.
  destruct (back (offsets_upto (length rptr1 - 1) rptr1 (thread_rptr_ b)))
    as [n|] eqn:E; [done|].
  exfalso. unfold back in E. apply last_None in E.
  apply (grow_rptr_nonempty base) in Hne. fold rptr1 in Hne.
  apply (f_equal length) in E. rewrite length_offsets_upto in E.
  destruct rptr1; [done|]. done.
Qed.

(** With no thread and an empty [rptr_], step 3 reads [rptr_.back()] of an
    empty vector. *)
Lemma InitStorage_undefined b :
  rptr_ b = [] → thread_rptr_ b = [] → InitStorage dflt b = None.
Proof. intros H1 H2. unfold InitStorage. by rewrite H1, H2. Qed.

End Storage.

Lemma final_cursors_eq rptr rows :
  final_cursors rptr rows = cursor_table (default 0%Z (back rptr)) rows.
Proof.
  unfold final_cursors, cursor_table, cursors_upto.
  apply imap_ext. intros t row Ht. apply imap_ext. intros k c Hk.
  unfold cursor_cell. rewrite decide_True; [done|].
  apply lookup_lt_Some in Hk.
  pose proof (grow_rptr_covers (default 0%Z (back rptr)) rptr rows row
                (list_elem_of_lookup_2 _ _ _ Ht)). lia.
Qed.

Lemma lookup_cursor_table base rows t k row c :
  rows !! t = Some row → row !! k = Some c →
  cursor_table base rows !! t ≫= (.!! k) = Some (wrap (start rows t k + base)).
Proof.
  intros Ht Hk. unfold cursor_table.
  rewrite list_lookup_imap, Ht. simpl. by rewrite list_lookup_imap, Hk.
Qed.

Lemma length_final_offsets rptr rows :
  length (final_offsets rptr rows)
  = length (grow_rptr (default 0%Z (back rptr)) rptr rows).
Proof. unfold final_offsets. by rewrite length_offsets_upto. Qed.

Lemma lookup_final_offsets rptr rows j :
  final_offsets rptr rows !! j =
  (λ p, if decide (j = 0) then p else wrap (p + cum rows j))
    <$> grow_rptr (default 0%Z (back rptr)) rptr rows !! j.
Proof.
  unfold final_offsets. rewrite lookup_offsets_upto.
  destruct (_ !! j) as [p|] eqn:E; [|done]. simpl. f_equal.
  apply lookup_lt_Some in E. unfold offset_cell.
  repeat case_decide; try done; lia.
Qed.

Lemma back_final_offsets rptr rows :
  cells_in_range rptr →
  rptr ≠ [] ∨ rows ≠ [] →
  back (final_offsets rptr rows)
  = Some (wrap (default 0%Z (back rptr) + total rows)).
Proof.
  intros Hr Hne.
  set (base := default 0%Z (back rptr)).
  set (rptr1 := grow_rptr base rptr rows).
  assert (Hne1 : rptr1 ≠ []) by by apply grow_rptr_nonempty.
  assert (Hlen : 0 < length rptr1) by (destruct rptr1; [done|simpl; lia]).
  assert (Hb : back rptr1 = Some base).
  { pose proof (back_grow_rptr rptr rows) as Hb. fold base rptr1 in Hb.
    destruct (back rptr1) as [x|] eqn:E; [by simpl in Hb; subst|].
    apply last_None in E. done. }
  assert (Hbase : in_range base).
  { unfold base, back. destruct (last rptr) as [x|] eqn:E; simpl.
    - apply last_Some in E as [l' ->]. unfold cells_in_range in Hr.
      apply Forall_app in Hr as [_ Hx]. by inversion Hx.
    - by compute. }
  unfold back. rewrite last_lookup, length_final_offsets, lookup_final_offsets.
  fold base rptr1.
  unfold back in Hb. rewrite last_lookup in Hb. rewrite Hb. simpl. f_equal.
  case_decide as Hz.
  - assert (Hw : width rows = 0).
    { destruct rows as [|row rows']; [done|].
      pose proof (grow_rptr_width base rptr (row :: rows') ltac:(done)) as Hw.
      fold rptr1 in Hw. lia. }
    unfold total. rewrite Hw. simpl. rewrite Z.add_0_r. by rewrite wrap_small.
  - f_equal. f_equal. apply cum_ge_width.
    destruct rows as [|row rows']; [unfold width; simpl; lia|].
    pose proof (grow_rptr_width base rptr (row :: rows') ltac:(done)) as Hw.
    fold rptr1 in Hw. lia.
Qed.

(** ** Phases 1 and 2 *)

Section Budgets.

Context {ValueType : Type}.
Implicit Types b : builder ValueType.

Lemma InitBudget_rows nkeys nthread b :
  thread_rptr_ (InitBudget nkeys nthread b)
  = replicate nthread (replicate nkeys 0%Z).
Proof.
  unfold InitBudget. simpl. apply list_eq. intros t.
  rewrite list_lookup_fmap. destruct (decide (t < nthread)) as [Ht|Ht].
  - destruct (lookup_lt_is_Some_2 (resize nthread [] (thread_rptr_ b)) t)
      as [row Hrow]; [by rewrite length_resize|].
    rewrite Hrow. simpl. rewrite length_resize.
    by rewrite lookup_replicate_2.
  - rewrite (lookup_ge_None_2 (resize _ _ _)) by (rewrite length_resize; lia).
    rewrite (lookup_ge_None_2 (replicate _ _)) by (rewrite length_replicate; lia).
    done.
Qed.

Lemma InitBudget_in_range nkeys nthread b :
  table_in_range (thread_rptr_ (InitBudget nkeys nthread b)).
Proof.
  rewrite InitBudget_rows. apply Forall_replicate, Forall_replicate. by compute.
Qed.

Lemma InitBudget_budget nkeys nthread b t k :
  budget (thread_rptr_ (InitBudget nkeys nthread b)) t k = 0%Z.
Proof.
  rewrite InitBudget_rows. unfold budget, cell.
  destruct (replicate nthread (replicate nkeys 0%Z) !! t) as [row|] eqn:E;
    simpl; [|done].
  apply lookup_replicate in E as [-> _].
  destruct (replicate nkeys 0%Z !! k) as [c|] eqn:E'; simpl; [|done].
  by apply lookup_replicate in E' as [-> _].
Qed.

Lemma length_grow_row key row : length (grow_row key row) = length row `max` (key + 1).
Proof. unfold grow_row. case_decide; [rewrite length_resize|]; lia. Qed.

Lemma lookup_grow_row_old key row j :
  j < length row → grow_row key row !! j = row !! j.
Proof.
  intros Hj. unfold grow_row. case_decide; [|done].
  apply lookup_resize; lia.
Qed.

Lemma lookup_grow_row_new key row j :
  length row ≤ j → j ≤ key → grow_row key row !! j = Some 0%Z.
Proof.
  intros ??. unfold grow_row. rewrite decide_True by lia.
  apply lookup_resize_new; lia.
Qed.

Lemma cell_grow_row key row j : cell (grow_row key row) j = cell row j.
Proof.
  unfold cell. destruct (decide (j < length row)).
  - by rewrite lookup_grow_row_old.
  - rewrite (lookup_ge_None_2 row) by lia.
    destruct (decide (j ≤ key)).
    + by rewrite lookup_grow_row_new by lia.
    + rewrite lookup_ge_None_2; [done|]. rewrite length_grow_row. lia.
Qed.

Lemma lookup_grow_row_key key row :
  grow_row key row !! key = Some (cell row key).
Proof.
  destruct (lookup_lt_is_Some_2 (grow_row key row) key) as [c Hc].
  { rewrite length_grow_row. lia. }
  rewrite Hc. f_equal. rewrite <-cell_grow_row with (key := key).
  unfold cell. by rewrite Hc.
Qed.

Lemma grow_row_in_range key row :
  cells_in_range row → cells_in_range (grow_row key row).
Proof.
  intros H. unfold grow_row. case_decide; [|done].
  apply Forall_resize; [by compute|done].
Qed.

Lemma AddBudget_eq key threadid nelem b row :
  thread_rptr_ b !! threadid = Some row →
  AddBudget key threadid nelem b =
  Some (Builder (rptr_ b) (data_ b)
          (<[threadid := <[key := wrap (cell row key + nelem)]> (grow_row key row)]>
             (thread_rptr_ b))).
Proof.
  intros Hrow. unfold AddBudget. rewrite Hrow. simpl.
  by rewrite lookup_grow_row_key.
Qed.


Lemma AddBudget_in_range key threadid nelem b b' :
  AddBudget key threadid nelem b = Some b' →
  table_in_range (thread_rptr_ b) → table_in_range (thread_rptr_ b').
Proof.
  intros H Hrows. destruct (thread_rptr_ b !! threadid) as [row|] eqn:Hrow.
  2: { unfold AddBudget in H. by rewrite Hrow in H. }
  rewrite (AddBudget_eq _ _ _ _ _ Hrow) in H. injection H as <-. simpl.
  apply Forall_insert; [done|].
  apply Forall_insert; [|apply wrap_in_range].
  apply grow_row_in_range. by eapply Forall_lookup_1.
Qed.

Lemma AddBudget_frame key threadid nelem b b' :
  AddBudget key threadid nelem b = Some b' →
  rptr_ b' = rptr_ b ∧ data_ b' = data_ b
  ∧ length (thread_rptr_ b') = length (thread_rptr_ b).
Proof.
  intros H. destruct (thread_rptr_ b !! threadid) as [row|] eqn:Hrow.
  2: { unfold AddBudget in H. by rewrite Hrow in H. }
  rewrite (AddBudget_eq _ _ _ _ _ Hrow) in H. injection H as <-. simpl.
  by rewrite length_insert.
Qed.

Lemma add_budgets_frame calls b b' :
  add_budgets calls b = Some b' →
  rptr_ b' = rptr_ b ∧ data_ b' = data_ b
  ∧ length (thread_rptr_ b') = length (thread_rptr_ b).
Proof.
  revert b. induction calls as [|[[key t] n] rest IH]; intros b H; simpl in H.
  - by injection H as <-.
  - destruct (AddBudget key t n b) as [b1|] eqn:E; [|done]. simpl in H.
    destruct (IH _ H) as (-> & -> & ->). by apply AddBudget_frame in E.
Qed.

Lemma add_budgets_in_range calls b b' :
  add_budgets calls b = Some b' →
  table_in_range (thread_rptr_ b) → table_in_range (thread_rptr_ b').
Proof.
  revert b. induction calls as [|[[key t] n] rest IH]; intros b H Hr; simpl in H.
  - by injection H as <-.
  - destruct (AddBudget key t n b) as [b1|] eqn:E; [|done]. simpl in H.
    eapply IH; [done|]. by eapply AddBudget_in_range.
Qed.



End Budgets.

(** ** Phase 4 *)

Section Fill.

Context {ValueType : Type}.
Implicit Types b : builder ValueType.
Implicit Types calls done todo : list (push_call ValueType).

Lemma pushed_app t k calls1 calls2 :
  pushed t k (calls1 ++ calls2) = pushed t k calls1 ++ pushed t k calls2.
Proof.
  induction calls1 as [|[[key v] tid] rest IH]; simpl; [done|].
  case_decide; simpl; by rewrite IH.
Qed.

Lemma pushed_snoc t k done key v tid :
  pushed t k (done ++ [(key, v, tid)]) =
  if decide (key = k ∧ tid = t) then pushed t k done ++ [v] else pushed t k done.
Proof.
  rewrite pushed_app. simpl. case_decide; [done|]. by rewrite app_nil_r.
Qed.

Variable rows : list (list Z).
Variable base : Z.
Hypothesis rows_in_range : table_in_range rows.
Hypothesis base_nonneg : (0 ≤ base)%Z.
Hypothesis no_overflow : (base + total rows < modulus)%Z.

Lemma budget_positive_cell t k :
  (0 < budget rows t k)%Z →
  ∃ row c, rows !! t = Some row ∧ row !! k = Some c.
Proof.
  unfold budget, cell. intros H.
  destruct (rows !! t) as [row|]; simpl in H; [|lia].
  destruct (row !! k) as [c|] eqn:E; simpl in H; [|lia]. eauto.
Qed.

(** A cursor that has not used up its budget is an index of [data_]. *)
Lemma cursor_exact t k (n : nat) :
  (Z.of_nat n ≤ budget rows t k)%Z →
  wrap (start rows t k + base + Z.of_nat n)
  = (base + start rows t k + Z.of_nat n)%Z.
Proof.
  intros Hn. rewrite wrap_small; [lia|].
  pose proof (start_nonneg rows t k rows_in_range).
  pose proof (start_end_le_total rows t k rows_in_range).
  unfold in_range. lia.
Qed.

Lemma slot_in_data t k (j : nat) :
  (Z.of_nat j < budget rows t k)%Z →
  slot_of rows base t k j < Z.to_nat (base + total rows).
Proof.
  intros Hj. unfold slot_of.
  pose proof (start_nonneg rows t k rows_in_range).
  pose proof (start_end_le_total rows t k rows_in_range). lia.
Qed.

(** Two different (thread, key, rank) triples get different cells. *)
Lemma slot_of_inj t k j t' k' j' :
  (Z.of_nat j < budget rows t k)%Z →
  (Z.of_nat j' < budget rows t' k')%Z →
  slot_of rows base t k j = slot_of rows base t' k' j' →
  t = t' ∧ k = k' ∧ j = j'.
Proof.
  intros Hj Hj' Heq. unfold slot_of in Heq.
  pose proof (start_nonneg rows t k rows_in_range).
  pose proof (start_nonneg rows t' k' rows_in_range).
  destruct (decide ((t, k) = (t', k'))) as [[= <- <-]|Hne].
  - repeat split. lia.
  - destruct (ranges_disjoint rows t k t' k' rows_in_range Hne); lia.
Qed.

Lemma conserved_prefix done todo t k :
  conserved rows (done ++ todo) →
  (Z.of_nat (length (pushed t k done)) ≤ budget rows t k)%Z.
Proof.
  intros H. rewrite <-(H t k), pushed_app, length_app. lia.
Qed.

(** One call of [Push] in a conserved run. *)
Lemma Push_filled done key v tid todo b :
  filled rows base done b →
  conserved rows (done ++ (key, v, tid) :: todo) →
  ∃ b', Push key v tid b = Some b'
        ∧ push_slot key tid b
          = Some (slot_of rows base tid key (length (pushed tid key done)))
        ∧ rptr_ b' = rptr_ b
        ∧ filled rows base (done ++ [(key, v, tid)]) b'.
Proof.
  intros (Hcur & Hlen & Hdata) Hcons.
  set (n := length (pushed tid key done)).
  assert (Hn : (Z.of_nat n < budget rows tid key)%Z).
  { rewrite <-(Hcons tid key), pushed_app, length_app. simpl.
    rewrite decide_True by done. simpl. fold n. lia. }
  destruct (budget_positive_cell tid key) as (row & c & Hrow & Hc); [lia|].
  assert (Hrp : thread_rptr_ b !! tid
                = Some (imap (λ k _, wrap (start rows tid k + base
                               + Z.of_nat (length (pushed tid k done)))) row)).
  { rewrite Hcur. unfold cursors_after. by rewrite list_lookup_imap, Hrow. }
  pose proof (slot_in_data tid key n Hn) as Hslot.
  assert (Hexact : wrap (start rows tid key + base + Z.of_nat n)
                   = (base + start rows tid key + Z.of_nat n)%Z)
    by (apply cursor_exact; lia).
  unfold Push, push_slot. rewrite Hrp. simpl.
  rewrite list_lookup_imap, Hc. simpl. fold n. rewrite Hexact.
  fold (slot_of rows base tid key n).
  rewrite !decide_True by (rewrite Hlen; done).
  eexists. split; [done|]. split; [done|]. split; [done|].
  split; [|split]; simpl.
  - rewrite Hcur. unfold cursors_after. apply list_eq. intros t.
    rewrite list_lookup_insert, !list_lookup_imap, length_imap.
    destruct (decide (tid = t ∧ tid < length rows)) as [[<- _]|Hne].
    + rewrite Hrow. simpl. f_equal. apply list_eq. intros k.
      rewrite list_lookup_insert, !list_lookup_imap, length_imap.
      destruct (decide (key = k ∧ key < length row)) as [[<- _]|Hne].
      * rewrite Hc. simpl. f_equal. rewrite pushed_snoc, decide_True by done.
        rewrite length_app. simpl. fold n. rewrite <-Hexact, wrap_wrap_l.
        f_equal. lia.
      * destruct (row !! k) as [c'|] eqn:Hk; [|done]. simpl. f_equal.
        rewrite pushed_snoc, decide_False; [done|].
        intros [-> _]. apply Hne. split; [done|]. by eapply lookup_lt_Some.
    + destruct (rows !! t) as [row'|] eqn:Ht; [|done]. simpl. f_equal.
      apply imap_ext. intros k c' _. simpl.
      rewrite pushed_snoc, decide_False; [done|].
      intros [_ ->]. apply Hne. split; [done|]. by eapply lookup_lt_Some.
  - by rewrite length_insert.
  - intros t k j w Hw. rewrite pushed_snoc in Hw.
    assert (Hle : (Z.of_nat (length (pushed t k done)) ≤ budget rows t k)%Z).
    { eapply conserved_prefix. done. }
    destruct (decide (key = k ∧ tid = t)) as [[<- <-]|Hne].
    + fold n in Hle. apply lookup_app_Some in Hw as [Hw|[Hge Hw]].
      * pose proof (lookup_lt_Some _ _ _ Hw) as Hj. fold n in Hj.
        rewrite list_lookup_insert_ne; [by apply Hdata|].
        intros Heq. apply slot_of_inj in Heq as (_ & _ & ->); lia.
      * fold n in Hge, Hw. destruct (j - n) as [|?] eqn:Hjn; [|done].
        injection Hw as <-. replace j with n by lia.
        apply list_lookup_insert_eq. by rewrite Hlen.
    + pose proof (lookup_lt_Some _ _ _ Hw) as Hj.
      rewrite list_lookup_insert_ne; [by apply Hdata|].
      intros Heq. apply slot_of_inj in Heq as (-> & -> & _); [|lia|lia].
      by apply Hne.
Qed.

(** The whole of phase 4: every call is in bounds, call number [i] writes
    the cell of its (thread, key, rank) triple, and every value ends in
    its cell. *)
Lemma push_all_filled todo : ∀ done b,
  filled rows base done b →
  conserved rows (done ++ todo) →
  ∃ b' slots,
    push_all todo b = Some b'
    ∧ push_slots todo b = Some slots
    ∧ rptr_ b' = rptr_ b
    ∧ filled rows base (done ++ todo) b'
    ∧ length slots = length todo
    ∧ ∀ i key v tid, todo !! i = Some (key, v, tid) →
        slots !! i
        = Some (slot_of rows base tid key
                  (length (pushed tid key (done ++ take i todo)))).
Proof.
  induction todo as [|[[key v] tid] rest IH]; intros done b Hfill Hcons.
  - exists b, []. rewrite app_nil_r. do 5 (split; [done|]).
    intros i ??? Hi. by rewrite lookup_nil in Hi.
  - destruct (Push_filled done key v tid rest b Hfill Hcons)
      as (b1 & HP & Hslot & Hrptr & Hfill1).
    destruct (IH (done ++ [(key, v, tid)]) b1 Hfill1)
      as (b' & slots & Hall & Hslots & Hrptr' & Hfill' & Hlen & Hpos).
    { by rewrite <-app_assoc. }
    exists b', (slot_of rows base tid key (length (pushed tid key done)) :: slots).
    simpl. rewrite HP, Hslot. simpl. rewrite Hall, Hslots. simpl.
    rewrite <-app_assoc in Hfill'. simpl in Hfill'.
    do 2 (split; [done|]). split; [congruence|]. split; [done|].
    split; [by rewrite Hlen|].
    intros [|i] key' v' tid' Hi; simpl in *.
    +
      injection Hi as <- <- <-. by rewrite app_nil_r.
    + rewrite (Hpos _ _ _ _ Hi). by rewrite <-app_assoc.
Qed.

End Fill.

(** ** From step 3 to the end of phase 4 *)

Lemma base_in_range rptr :
  cells_in_range rptr → in_range (default 0%Z (back rptr)).
Proof.
  intros Hr. unfold back. destruct (last rptr) as [x|] eqn:E; simpl.
  - apply last_Some in E as [l' ->]. unfold cells_in_range in Hr.
    apply Forall_app in Hr as [_ Hx]. by inversion Hx.
  - by compute.
Qed.

Lemma total_nonneg rows : table_in_range rows → (0 ≤ total rows)%Z.
Proof. intros. by apply cum_nonneg. Qed.

Section Protocol.

Context {ValueType : Type}.
Variable dflt : ValueType.
Implicit Types b : builder ValueType.
Implicit Types pushes : list (push_call ValueType).

Lemma InitStorage_filled b :
  cells_in_range (rptr_ b) →
  table_in_range (thread_rptr_ b) →
  fits (rptr_ b) (thread_rptr_ b) →
  rptr_ b ≠ [] ∨ thread_rptr_ b ≠ [] →
  ∃ b3, InitStorage dflt b = Some b3
        ∧ rptr_ b3 = final_offsets (rptr_ b) (thread_rptr_ b)
        ∧ data_ b3 = resize (Z.to_nat (default 0%Z (back (rptr_ b))
                                        + total (thread_rptr_ b)))
                            dflt (data_ b)
        ∧ filled (thread_rptr_ b) (default 0%Z (back (rptr_ b))) [] b3.
Proof.
  intros Hr Hrows Hfits Hne.
  pose proof (base_in_range _ Hr) as Hbase.
  pose proof (total_nonneg _ Hrows) as Htot.
  assert (Hw : wrap (default 0%Z (back (rptr_ b)) + total (thread_rptr_ b))
               = (default 0%Z (back (rptr_ b)) + total (thread_rptr_ b))%Z).
  { apply wrap_small. unfold fits, in_range in *. lia. }
  eexists. split; [by apply InitStorage_eq|]. simpl.
  rewrite back_final_offsets by done. simpl. rewrite Hw.
  split; [done|]. split; [done|]. split; [|split]; simpl.
  - rewrite final_cursors_eq. unfold cursor_table, cursors_after.
    apply imap_ext. intros t row _. apply imap_ext. intros k c _. simpl.
    f_equal. lia.
  - by rewrite length_resize.
  - intros t k j v Hj. by rewrite lookup_nil in Hj.
Qed.

(** A build whose pushes match its budgets runs to the end. *)
Lemma matched_build b2 pushes :
  cells_in_range (rptr_ b2) →
  table_in_range (thread_rptr_ b2) →
  fits (rptr_ b2) (thread_rptr_ b2) →
  rptr_ b2 ≠ [] ∨ thread_rptr_ b2 ≠ [] →
  conserved (thread_rptr_ b2) pushes →
  ∃ b3 b4 slots,
    InitStorage dflt b2 = Some b3
    ∧ push_all pushes b3 = Some b4
    ∧ push_slots pushes b3 = Some slots
    ∧ rptr_ b4 = final_offsets (rptr_ b2) (thread_rptr_ b2)
    ∧ data_ b3 = resize (Z.to_nat (default 0%Z (back (rptr_ b2))
                                    + total (thread_rptr_ b2)))
                        dflt (data_ b2)
    ∧ filled (thread_rptr_ b2) (default 0%Z (back (rptr_ b2))) pushes b4
    ∧ length slots = length pushes
    ∧ ∀ i key v tid, pushes !! i = Some (key, v, tid) →
        slots !! i
        = Some (slot_of (thread_rptr_ b2) (default 0%Z (back (rptr_ b2)))
                  tid key (length (pushed tid key (take i pushes)))).
Proof.
  intros Hr Hrows Hfits Hne Hcons.
  destruct (InitStorage_filled b2 Hr Hrows Hfits Hne)
    as (b3 & HI & Hrptr & Hdata & Hfill).
  pose proof (base_in_range _ Hr) as [Hbase _].
  destruct (push_all_filled (thread_rptr_ b2) (default 0%Z (back (rptr_ b2)))
              Hrows Hbase Hfits pushes [] b3 Hfill Hcons)
    as (b4 & slots & Hall & Hslots & Hrptr' & Hfill' & Hlen & Hpos).
  exists b3, b4, slots. simpl in *.
  do 3 (split; [done|]). split; [congruence|]. do 3 (split; [done|]). done.
Qed.

End Protocol.

(** ** Segments of [data_] *)

Section Segments.

Context {ValueType : Type}.
Implicit Types b : builder ValueType.
Implicit Types pushes calls : list (push_call ValueType).
Implicit Types data : list ValueType.

(** A list that holds the blocks one after the other from [lo] on. *)
Lemma take_drop_concat (bs : list (list ValueType)) data lo :
  (∀ t blk j v, bs !! t = Some blk → blk !! j = Some v →
     data !! (lo + length (concat (take t bs)) + j) = Some v) →
  take (length (concat bs)) (drop lo data) = concat bs.
Proof.
  induction bs as [|blk bs IH] using rev_ind; intros H; [done|].
  rewrite concat_app, length_app. simpl. rewrite app_nil_r.
  rewrite <-take_take_drop. f_equal.
  - apply IH. intros t blk' j v Ht Hj.
    pose proof (lookup_lt_Some _ _ _ Ht) as Hlt.
    specialize (H t blk' j v). rewrite lookup_app_l, take_app_le in H by lia.
    by apply H.
  - rewrite drop_drop. apply list_eq. intros j.
    destruct (blk !! j) as [v|] eqn:Hj.
    + pose proof (lookup_lt_Some _ _ _ Hj) as Hlt.
      rewrite lookup_take_lt, lookup_drop by done.
      specialize (H (length bs) blk j v).
      rewrite take_app_length in H. apply H; [|done].
      by rewrite list_lookup_middle.
    + apply lookup_ge_None in Hj. by rewrite lookup_take_ge.
Qed.

Lemma pushed_elem key v tid calls :
  (key, v, tid) ∈ calls → v ∈ pushed tid key calls.
Proof.
  induction calls as [|[[key' v'] tid'] rest IH]; intros Hin.
  - by apply elem_of_nil in Hin.
  - simpl. apply elem_of_cons in Hin as [[= <- <- <-]|Hin].
    + rewrite decide_True by done. apply elem_of_cons. by left.
    + case_decide; [apply elem_of_cons; right|]; by apply IH.
Qed.

(** In a conserved run every call names a cell of the table. *)
Lemma conserved_call rows calls key v tid :
  conserved rows calls → (key, v, tid) ∈ calls →
  ∃ row c, rows !! tid = Some row ∧ row !! key = Some c.
Proof.
  intros Hcons Hin. apply pushed_elem in Hin.
  specialize (Hcons tid key). unfold budget, cell in Hcons.
  destruct (pushed tid key calls) as [|x l]; [by apply elem_of_nil in Hin|].
  rewrite length_cons in Hcons.
  destruct (rows !! tid) as [row|]; simpl in Hcons; [|lia].
  destruct (row !! key) as [c|] eqn:E; simpl in Hcons; [|lia]. by eexists _, _.
Qed.

Lemma length_blocks n k calls : length (blocks n k calls) = n.
Proof. unfold blocks. by rewrite length_fmap, length_seq. Qed.

Lemma lookup_blocks n k calls t :
  t < n → blocks n k calls !! t = Some (pushed t k calls).
Proof.
  intros Ht. unfold blocks. by rewrite list_lookup_fmap, lookup_seq_lt.
Qed.

Lemma length_concat_blocks rows calls k n m :
  conserved rows calls →
  Z.of_nat (length (concat (take m (blocks n k calls))))
  = sumZ (take (m `min` n) (column rows k)).
Proof.
  intros Hcons. induction m as [|m IH]; [done|].
  destruct (decide (m < n)) as [Hm|Hm].
  - replace (S m `min` n) with (S m) by lia.
    replace (m `min` n) with m in IH by lia.
    rewrite (take_S_r _ _ _ (lookup_blocks n k calls m Hm)).
    rewrite concat_app, length_app, concat_cons, concat_nil, app_nil_r.
    by rewrite sumZ_take_S, Nat2Z.inj_add, IH, (Hcons m k), budget_column.
  - rewrite take_ge in * by (rewrite length_blocks; lia).
    rewrite IH. f_equal. f_equal. lia.
Qed.

(** The cells from [base + cum rows k] to [base + cum rows (k + 1)] hold
    the values of key [k], thread after thread, each thread's values in
    the order of its calls. *)
Lemma segment_filled rows base pushes b k :
  table_in_range rows → (0 ≤ base)%Z →
  conserved rows pushes →
  filled rows base pushes b →
  slice (Z.to_nat (base + cum rows k)) (Z.to_nat (base + cum rows (S k)))
        (data_ b)
  = concat (blocks (length rows) k pushes).
Proof.
  intros Hrows Hbase Hcons (_ & _ & Hdata). unfold slice.
  pose proof (cum_nonneg rows k Hrows) as Hcum.
  pose proof (key_total_nonneg rows k Hrows) as Hkt.
  pose proof (length_concat_blocks rows pushes k (length rows) (length rows) Hcons)
    as Hlen.
  rewrite take_ge in Hlen by (rewrite length_blocks; lia).
  rewrite Nat.min_id, take_ge in Hlen by (rewrite length_column; lia).
  replace (Z.to_nat (base + cum rows (S k)) - Z.to_nat (base + cum rows k))
    with (length (concat (blocks (length rows) k pushes))).
  2: { simpl. unfold key_total. lia. }
  apply take_drop_concat. intros t blk j v Ht Hj.
  pose proof (lookup_lt_Some _ _ _ Ht) as Hlt. rewrite length_blocks in Hlt.
  rewrite lookup_blocks in Ht by done. injection Ht as <-.
  specialize (Hdata t k j v Hj). unfold slot_of, start in Hdata.
  pose proof (length_concat_blocks rows pushes k (length rows) t Hcons) as Ht.
  replace (t `min` length rows) with t in Ht by lia.
  rewrite <-Hdata. f_equal. lia.
Qed.

End Segments.

(** ** Offsets of a build *)

Lemma new_key_offset rptr rows k :
  cells_in_range rptr → table_in_range rows → fits rptr rows →
  length rptr ≤ k + 1 →
  k < length (final_offsets rptr rows) →
  final_offsets rptr rows !! k = Some (default 0 (back rptr) + cum rows k)%Z.
Proof.
  intros Hr Hrows Hfits Hk Hlt.
  set (base := default 0%Z (back rptr)).
  pose proof (base_in_range _ Hr) as Hbase. fold base in Hbase.
  rewrite length_final_offsets in Hlt. fold base in Hlt.
  rewrite lookup_final_offsets. fold base.
  assert (Hp : grow_rptr base rptr rows !! k = Some base).
  { destruct (decide (length rptr ≤ k)).
    - by apply lookup_grow_rptr_new.
    - rewrite lookup_grow_rptr_old by lia.
      unfold base, back. rewrite last_lookup.
      replace (pred (length rptr)) with k by lia.
      destruct (lookup_lt_is_Some_2 rptr k) as [p Hp]; [lia|]. by rewrite Hp. }
  rewrite Hp. simpl. f_equal. case_decide as Hz.
  - subst k. simpl. lia.
  - apply wrap_small.
    pose proof (cum_nonneg rows k Hrows). pose proof (cum_le_total rows k Hrows).
    unfold fits, in_range in *. fold base in Hfits. lia.
Qed.

Section Grouping.

Context {ValueType : Type}.
Implicit Types calls pushes : list (push_call ValueType).

Lemma concat_fmap_nil (l : list nat) :
  concat ((λ _, @nil ValueType) <$> l) = [].
Proof. induction l as [|x l IH]; [done|]. by rewrite fmap_cons, concat_cons, IH. Qed.

(** Adding one value to the block of thread [tid] adds it to the
    concatenation, up to a permutation. *)
Lemma concat_blocks_insert (f g : nat → list ValueType) v tid j n :
  j ≤ tid < j + n →
  f tid = v :: g tid →
  (∀ t, t ≠ tid → f t = g t) →
  concat (f <$> seq j n) ≡ₚ v :: concat (g <$> seq j n).
Proof.
  revert j. induction n as [|n IH]; intros j Hj Hf Hg; [lia|].
  change (seq j (S n)) with (j :: seq (S j) n).
  rewrite !fmap_cons, !concat_cons.
  destruct (decide (j = tid)) as [->|Hne].
  - assert (Heq : f <$> seq (S tid) n = g <$> seq (S tid) n).
    { apply list_fmap_ext. intros i t Ht. apply Hg.
      apply lookup_seq in Ht. lia. }
    by rewrite Hf, Heq.
  - rewrite (Hg j) by done. rewrite (IH (S j)); [|lia|done|done].
    by rewrite Permutation_middle.
Qed.

(** The values of a key are those of its blocks. *)
Lemma pushed_key_blocks n k calls :
  Forall (λ c : push_call ValueType, c.2 < n) calls →
  pushed_key k calls ≡ₚ concat (blocks n k calls).
Proof.
  unfold blocks. induction 1 as [|[[key v] tid] rest Htid _ IH].
  - apply Permutation_refl', eq_sym, concat_fmap_nil.
  - cbn [pushed_key pushed].
    simpl in Htid. destruct (decide (key = k)) as [->|Hne].
    + rewrite IH. symmetry. apply concat_blocks_insert with (tid := tid).
      * lia.
      * by rewrite decide_True.
      * intros t Ht. rewrite decide_False; [done|]. by intros [_ ->].
    + rewrite IH.
      assert (Heq : (λ t, if decide (key = k ∧ tid = t)
                          then v :: pushed t k rest else pushed t k rest)
                      <$> seq 0 n
                    = (λ t, pushed t k rest) <$> seq 0 n).
      { apply list_fmap_ext. intros i t _. rewrite decide_False; [done|].
        by intros [-> _]. }
      by rewrite Heq.
Qed.

Lemma conserved_threads rows calls :
  conserved rows calls →
  Forall (λ c : push_call ValueType, c.2 < length rows) calls.
Proof.
  intros Hcons. apply Forall_forall. intros [[key v] tid] Hin. simpl.
  destruct (conserved_call rows calls key v tid Hcons Hin) as (row & c & Ht & _).
  by eapply lookup_lt_Some.
Qed.


End Grouping.

Lemma grow_rptr_length_le fill rptr rows W :
  Forall (λ row, length row ≤ W) rows →
  length (grow_rptr fill rptr rows) ≤ length rptr `max` (W + 1).
Proof.
  unfold grow_rptr. intros H. revert rptr.
  induction H as [|row rest Hrow _ IH]; intros rptr; simpl; [lia|].
  etrans; [apply IH|]. case_decide; [rewrite length_resize|]; lia.
Qed.

Lemma grow_rptr_length_fresh fill rows :
  rows ≠ [] → length (grow_rptr fill [] rows) = width rows + 1.
Proof.
  intros Hne. apply Nat.le_antisymm; [|by apply grow_rptr_width].
  etrans; [apply (grow_rptr_length_le _ _ _ (width rows))|simpl; lia].
  apply Forall_lookup. intros t row Ht. by eapply length_le_width.
Qed.

(** ** Fresh builds *)

Section Fresh.

Context {ValueType : Type}.
Variable dflt : ValueType.
Implicit Types b : builder ValueType.
Implicit Types pushes : list (push_call ValueType).

Lemma phase2_state nkeys nthread budgets b b2 :
  add_budgets budgets (InitBudget nkeys nthread b) = Some b2 →
  rptr_ b2 = rptr_ b ∧ data_ b2 = data_ b
  ∧ length (thread_rptr_ b2) = nthread
  ∧ table_in_range (thread_rptr_ b2).
Proof.
  intros H. destruct (add_budgets_frame _ _ _ H) as (-> & -> & ->).
  rewrite InitBudget_rows, length_replicate. repeat split.
  eapply add_budgets_in_range; [done|]. apply InitBudget_in_range.
Qed.

Lemma fresh_build nkeys nthread budgets pushes rows0 b2 :
  0 < nthread →
  add_budgets budgets (InitBudget nkeys nthread (fresh rows0)) = Some b2 →
  conserved (thread_rptr_ b2) pushes →
  (total (thread_rptr_ b2) < modulus)%Z →
  ∃ b4, build dflt nkeys nthread budgets pushes (fresh rows0) = Some b4
        ∧ thread_rptr_ b4 = cursors_after (thread_rptr_ b2) 0 pushes
        ∧ length (rptr_ b4) = width (thread_rptr_ b2) + 1
        ∧ (∀ k, k < length (rptr_ b4) →
             rptr_ b4 !! k = Some (cum (thread_rptr_ b2) k))
        ∧ length (data_ b4) = Z.to_nat (total (thread_rptr_ b2))
        ∧ ∀ k, slice (Z.to_nat (cum (thread_rptr_ b2) k))
                     (Z.to_nat (cum (thread_rptr_ b2) (S k))) (data_ b4)
               = concat (blocks nthread k pushes).
Proof.
  intros Hn H2 Hcons Htot.
  destruct (phase2_state _ _ _ _ _ H2) as (Hrptr & Hdata & Hlen & Hrows).
  simpl in Hrptr, Hdata.
  assert (Hne : thread_rptr_ b2 ≠ []).
  { intros E. rewrite E in Hlen. simpl in Hlen. lia. }
  assert (Hr : cells_in_range (rptr_ b2)) by (rewrite Hrptr; constructor).
  assert (Hfits : fits (rptr_ b2) (thread_rptr_ b2)).
  { unfold fits. rewrite Hrptr. simpl. lia. }
  destruct (matched_build dflt b2 pushes Hr Hrows Hfits (or_intror Hne) Hcons)
    as (b3 & b4 & slots & HI & Hall & _ & Hptr & _ & Hfill & _).
  exists b4. unfold build. rewrite H2. simpl. rewrite HI. simpl.
  split; [done|]. rewrite Hptr, Hrptr in *. simpl in Hfill.
  split; [by destruct Hfill as (-> & _)|].
  split; [|split; [|split]].
  - rewrite length_final_offsets. by apply grow_rptr_length_fresh.
  - intros k Hk.
    rewrite new_key_offset; [|done|done|done|simpl; lia|done].
    simpl. f_equal.
  - by destruct Hfill as (_ & -> & _).
  - intros k. rewrite <-Hlen.
    by rewrite <-(segment_filled (thread_rptr_ b2) 0 pushes b4 k).
Qed.

End Fresh.

Section Whole.

Context {ValueType : Type}.
Implicit Types data : list ValueType.

Lemma lookup_slice lo hi data j v :
  slice lo hi data !! j = Some v → data !! (lo + j) = Some v.
Proof.
  unfold slice. intros H. apply lookup_take_Some in H as [H _].
  by rewrite lookup_drop in H.
Qed.

Lemma length_slice lo hi data :
  lo ≤ hi → hi ≤ length data → length (slice lo hi data) = hi - lo.
Proof. intros ??. unfold slice. rewrite length_take, length_drop. lia. Qed.

(** A list cut in consecutive slices at non-decreasing offsets [off 0 = 0],
    ..., [off n = length data] is the concatenation of the slices. *)
Lemma concat_slices (off : nat → nat) n data :
  off 0 = 0 → off n = length data →
  (∀ k, k < n → off k ≤ off (S k)) →
  concat ((λ k, slice (off k) (off (S k)) data) <$> seq 0 n) = data.
Proof.
  intros H0 Hn Hmono.
  assert (Hle : ∀ k k', k ≤ k' → k' ≤ n → off k ≤ off k').
  { intros k k' Hk. induction Hk as [|k' Hk IH]; intros ?; [done|].
    etrans; [apply IH; lia|]. apply Hmono. lia. }
  assert (Hlen : ∀ m, m ≤ n →
    length (concat (take m ((λ k, slice (off k) (off (S k)) data) <$> seq 0 n)))
    = off m).
  { induction m as [|m IH]; intros Hm; [by rewrite H0|].
    erewrite take_S_r.
    2: { rewrite list_lookup_fmap, lookup_seq_lt by lia. done. }
    rewrite concat_app, length_app, IH by lia. simpl. rewrite app_nil_r.
    rewrite length_slice; [|apply Hmono; lia|rewrite <-Hn; apply Hle; lia].
    pose proof (Hmono m). lia. }
  rewrite <-(take_drop_concat _ data 0).
  - rewrite <-(Hlen n) in Hn by done.
    rewrite take_ge in Hn by (rewrite length_fmap, length_seq; lia).
    rewrite Hn. simpl. apply firstn_all.
  - intros k blk j v Hk Hj.
    pose proof (lookup_lt_Some _ _ _ Hk) as Hlt.
    rewrite length_fmap, length_seq in Hlt.
    rewrite list_lookup_fmap, lookup_seq_lt in Hk by done.
    injection Hk as <-. rewrite Hlen by lia. simpl.
    by apply lookup_slice in Hj.
Qed.

End Whole.

Section FreshData.

Context {ValueType : Type}.
Variable dflt : ValueType.
Implicit Types b : builder ValueType.
Implicit Types pushes : list (push_call ValueType).

Lemma cursors_after_ext rows base pushes pushes' :
  (∀ t k, pushed t k pushes' = pushed t k pushes) →
  cursors_after rows base pushes' = cursors_after rows base pushes.
Proof.
  intros H. unfold cursors_after. apply imap_ext. intros t row _.
  apply imap_ext. intros k c _. simpl. by rewrite H.
Qed.

Lemma grouped_ext nthread nkeys pushes pushes' :
  (∀ t k, pushed t k pushes' = pushed t k pushes) →
  grouped nthread nkeys pushes' = grouped nthread nkeys pushes.
Proof.
  intros H. unfold grouped, blocks. f_equal. apply list_fmap_ext.
  intros _ k _. f_equal. apply list_fmap_ext. intros _ t _. apply H.
Qed.

(** The result of a fresh build, written out. *)
Lemma fresh_build_closed nkeys nthread budgets pushes rows0 b2 :
  0 < nthread →
  add_budgets budgets (InitBudget nkeys nthread (fresh rows0)) = Some b2 →
  conserved (thread_rptr_ b2) pushes →
  (total (thread_rptr_ b2) < modulus)%Z →
  build dflt nkeys nthread budgets pushes (fresh rows0)
  = Some (Builder (final_offsets [] (thread_rptr_ b2))
            (grouped nthread (width (thread_rptr_ b2)) pushes)
            (cursors_after (thread_rptr_ b2) 0 pushes)).
Proof.
  intros Hn H2 Hcons Htot.
  destruct (fresh_build dflt nkeys nthread budgets pushes rows0 b2
              Hn H2 Hcons Htot)
    as ([rptr data rows] & -> & Hcur & Hlen & Hptr & Hdlen & Hseg).
  simpl in *. f_equal.
  destruct (phase2_state _ _ _ _ _ H2) as (_ & _ & Hlen2 & Hrows).
  f_equal; [| |done].
  - apply list_eq. intros k. destruct (decide (k < length rptr)) as [Hk|Hk].
    + rewrite Hptr by done. symmetry.
      assert (Hne : thread_rptr_ b2 ≠ []).
      { intros E. rewrite E in Hlen2. simpl in Hlen2. lia. }
      rewrite (new_key_offset [] (thread_rptr_ b2) k); simpl.
      * f_equal.
      * constructor.
      * done.
      * unfold fits. simpl. lia.
      * lia.
      * rewrite length_final_offsets, grow_rptr_length_fresh by done. lia.
    + rewrite !lookup_ge_None_2; [done| |lia].
      rewrite length_final_offsets.
      etrans; [apply (grow_rptr_length_le _ _ _ (width (thread_rptr_ b2)))|
               simpl; lia].
      apply Forall_lookup. intros t row Ht. by eapply length_le_width.
  - unfold grouped.
    rewrite <-(concat_slices (λ k, Z.to_nat (cum (thread_rptr_ b2) k))
                 (width (thread_rptr_ b2)) data) at 1.
    + f_equal. apply list_fmap_ext. intros _ k _. apply Hseg.
    + done.
    + by rewrite Hdlen.
    + intros k _. pose proof (key_total_nonneg (thread_rptr_ b2) k Hrows).
      simpl. lia.
Qed.

End FreshData.

(** * The properties of the specification *)



(** C6 (thread order). In a fresh build with matched budgets and pushes,
    the segment of every key holds first the values of thread 0, then
    those of thread 1, and so on, each thread's values in the order of its
    own calls; the result only depends on what every thread pushes for
    every key, not on how the calls of different threads interleave; and
    on the example of two threads the result is [ptr = [0, 1, 3]] and
    [data = [11, 10, 20]]. *)
Theorem thread_order_fresh_build {ValueType : Type} (dflt : ValueType)
    (nkeys nthread : nat) (budgets : list budget_call)
    (pushes : list (push_call ValueType)) (rows0 : list (list Z))
    (b2 : builder ValueType) :
  0 < nthread →
  add_budgets budgets (InitBudget nkeys nthread (fresh rows0)) = Some b2 →
  conserved (thread_rptr_ b2) pushes →
  (total (thread_rptr_ b2) < modulus)%Z →
  ∃ b4, build dflt nkeys nthread budgets pushes (fresh rows0) = Some b4
        ∧ (∀ k, k + 1 < length (rptr_ b4) →
             segment b4 k = Some (concat (blocks nthread k pushes)))
        ∧ (∀ pushes', (∀ t k, pushed t k pushes' = pushed t k pushes) →
             build dflt nkeys nthread budgets pushes' (fresh rows0) = Some b4)
        ∧ ∀ nkeys', nkeys' ≤ 2 →
            build 0%Z nkeys' 2 example_budgets example_pushes (fresh rows0)
            = Some (Builder [0; 1; 3]%Z [11; 10; 20]%Z [[1; 2]; [1; 3]]%Z).
Proof.
  intros Hn H2 Hcons Htot.
  pose proof (fresh_build_closed dflt nkeys nthread budgets pushes rows0 b2
                Hn H2 Hcons Htot) as Hclosed.
  destruct (fresh_build dflt nkeys nthread budgets pushes rows0 b2
              Hn H2 Hcons Htot)
    as (b4 & Hb & _ & Hlen & Hptr & _ & Hseg).
  exists b4. split; [done|]. split; [|split].
  - intros k Hk. unfold segment.
    rewrite (Hptr k), (Hptr (S k)) by lia. simpl. by rewrite Hseg.
  - intros pushes' Hsame.
    rewrite (fresh_build_closed dflt nkeys nthread budgets pushes' rows0 b2);
      try done.
    + rewrite Hb in Hclosed. rewrite Hclosed.
      by rewrite (grouped_ext _ _ _ _ Hsame), (cursors_after_ext _ _ _ _ Hsame).
    + intros t k. rewrite Hsame. apply Hcons.
  - intros nkeys' Hk. unfold build.
    assert (Hrows : thread_rptr_ (InitBudget (ValueType:=Z) nkeys' 2 (fresh rows0))
                    = replicate 2 (replicate nkeys' 0%Z))
      by apply InitBudget_rows.
    destruct nkeys' as [|[|[|?]]]; [| | |lia];
      unfold InitBudget, fresh in *; simpl in Hrows |- *; rewrite Hrows;
      vm_compute; reflexivity.
Qed.

Lemma thread_order_fresh_build_witness :
  ∃ b4, build 0%Z 0 2 example_budgets example_pushes (fresh []) = Some b4
        ∧ (∀ k, k + 1 < length (rptr_ b4) →
             segment b4 k = Some (concat (blocks 2 k example_pushes)))
        ∧ (∀ pushes', (∀ t k, pushed t k pushes' = pushed t k example_pushes) →
             build 0%Z 0 2 example_budgets pushes' (fresh []) = Some b4)
        ∧ ∀ nkeys', nkeys' ≤ 2 →
            build 0%Z nkeys' 2 example_budgets example_pushes (fresh [])
            = Some (Builder [0; 1; 3]%Z [11; 10; 20]%Z [[1; 2]; [1; 3]]%Z).
Proof.
  apply (thread_order_fresh_build 0%Z 0 2 example_budgets example_pushes []
           (Builder [] [] [[1; 1]; [0; 1]]%Z)).
  - lia.
  - vm_compute. reflexivity.
  - intros [|[|t]] [|[|k]]; vm_compute; reflexivity.
  - vm_compute. reflexivity.
Defined.



(** ** Keys without budget *)

Lemma key_total_zero rows k :
  (∀ t, budget rows t k = 0%Z) → key_total rows k = 0%Z.
Proof.
  intros H. unfold key_total.
  assert (Hz : Forall (λ x, x = 0%Z) (column rows k)).
  { apply Forall_lookup. intros t x Hx. specialize (H t).
    rewrite budget_column, Hx in H. done. }
  induction Hz as [|x l -> _ IH]; simpl; [done|]. by rewrite IH.
Qed.

Lemma grow_rptr_in_range rptr rows :
  cells_in_range rptr →
  cells_in_range (grow_rptr (default 0%Z (back rptr)) rptr rows).
Proof.
  intros Hr. destruct (grow_rptr_app (default 0%Z (back rptr)) rptr rows) as [m ->].
  apply Forall_app. split; [done|].
  apply Forall_replicate. by apply base_in_range.
Qed.

Lemma back_Some_default (rptr : list Z) :
  rptr ≠ [] → rptr !! (length rptr - 1) = Some (default 0%Z (back rptr)).
Proof.
  intros Hne. unfold back. rewrite last_lookup.
  replace (pred (length rptr)) with (length rptr - 1) by lia.
  destruct (lookup_lt_is_Some_2 rptr (length rptr - 1)) as [p Hp].
  - destruct rptr; [done|simpl; lia].
  - by rewrite Hp.
Qed.


Section ZeroBudget.

Context {ValueType : Type}.
Variable dflt : ValueType.
Implicit Types b : builder ValueType.

Lemma InitStorage_Some_inv b b3 :
  InitStorage dflt b = Some b3 →
  (rptr_ b ≠ [] ∨ thread_rptr_ b ≠ [])
  ∧ rptr_ b3 = final_offsets (rptr_ b) (thread_rptr_ b)
  ∧ thread_rptr_ b3 = final_cursors (rptr_ b) (thread_rptr_ b)
  ∧ data_ b3 = resize (Z.to_nat (default 0%Z (back (rptr_ b3)))) dflt (data_ b).
Proof.
  intros H.
  assert (Hne : rptr_ b ≠ [] ∨ thread_rptr_ b ≠ []).
  { destruct (rptr_ b) eqn:E1; [|by left].
    destruct (thread_rptr_ b) eqn:E2; [|by right].
    by rewrite InitStorage_undefined in H. }
  rewrite InitStorage_eq in H by done. by injection H as <-.
Qed.

End ZeroBudget.



(** ** Offsets in append mode *)

Lemma grow_rptr_le_base rptr rows j p :
  nondecreasing rptr →
  grow_rptr (default 0%Z (back rptr)) rptr rows !! j = Some p →
  (p ≤ default 0%Z (back rptr))%Z.
Proof.
  intros Hmono Hp. destruct (decide (j < length rptr)) as [Hj|Hj].
  - rewrite lookup_grow_rptr_old in Hp by done.
    assert (Hne : rptr ≠ []) by (intros ->; simpl in Hj; lia).
    apply (Hmono j (length rptr - 1) p _ ltac:(lia) Hp).
    by apply back_Some_default.
  - pose proof (lookup_lt_Some _ _ _ Hp).
    rewrite lookup_grow_rptr_new in Hp by lia. injection Hp as <-. lia.
Qed.

Lemma grow_rptr_nondecreasing rptr rows :
  nondecreasing rptr →
  nondecreasing (grow_rptr (default 0%Z (back rptr)) rptr rows).
Proof.
  intros Hmono i j x y Hij Hx Hy.
  destruct (decide (j < length rptr)) as [Hj|Hj].
  - rewrite lookup_grow_rptr_old in Hx by lia.
    rewrite lookup_grow_rptr_old in Hy by lia.
    exact (Hmono i j x y Hij Hx Hy).
  - pose proof (lookup_lt_Some _ _ _ Hy).
    rewrite lookup_grow_rptr_new in Hy by lia. injection Hy as <-.
    by eapply grow_rptr_le_base.
Qed.

Lemma final_offsets_exact rptr rows j :
  cells_in_range rptr → nondecreasing rptr →
  table_in_range rows → fits rptr rows →
  final_offsets rptr rows !! j =
  (λ p, if decide (j = 0) then p else (p + cum rows j)%Z)
    <$> grow_rptr (default 0%Z (back rptr)) rptr rows !! j.
Proof.
  intros Hr Hmono Hrows Hfits. rewrite lookup_final_offsets.
  destruct (grow_rptr _ rptr rows !! j) as [p|] eqn:Hp; [|done]. simpl.
  f_equal. case_decide; [done|]. apply wrap_small.
  pose proof (grow_rptr_le_base _ _ _ _ Hmono Hp).
  assert (Hin : in_range p).
  { eapply Forall_lookup_1; [|exact Hp]. by apply grow_rptr_in_range. }
  pose proof (cum_nonneg rows j Hrows). pose proof (cum_le_total rows j Hrows).
  unfold fits, in_range in *. lia.
Qed.

Lemma final_offsets_nondecreasing rptr rows :
  cells_in_range rptr → nondecreasing rptr →
  table_in_range rows → fits rptr rows →
  nondecreasing (final_offsets rptr rows).
Proof.
  intros Hr Hmono Hrows Hfits i j x y Hij Hx Hy.
  rewrite final_offsets_exact in Hx by done.
  rewrite final_offsets_exact in Hy by done.
  destruct (grow_rptr _ rptr rows !! i) as [p|] eqn:Hp; [|done].
  destruct (grow_rptr _ rptr rows !! j) as [q|] eqn:Hq; [|done].
  simpl in Hx, Hy. injection Hx as <-. injection Hy as <-.
  pose proof (grow_rptr_nondecreasing rptr rows Hmono i j p q Hij Hp Hq).
  pose proof (cum_nonneg rows j Hrows).
  pose proof (cum_mono rows i j Hrows Hij).
  repeat case_decide; lia.
Qed.

(** C2 (segment coverage), as the code has it. On a builder whose offsets
    are values of the integer type and non-decreasing, with budgets whose
    total fits the integer type, and with a non-empty [ptr] or at least
    one thread, step 3 succeeds and then [ptr] is non-decreasing,
    [ptr.back()] is the length of [data], and [ptr[0]] is [0] for a fresh
    build and is left as it was in append mode. *)
Theorem offsets_after_InitStorage {ValueType : Type} (dflt : ValueType)
    (b : builder ValueType) :
  cells_in_range (rptr_ b) →
  nondecreasing (rptr_ b) →
  table_in_range (thread_rptr_ b) →
  fits (rptr_ b) (thread_rptr_ b) →
  rptr_ b ≠ [] ∨ thread_rptr_ b ≠ [] →
  ∃ b3, InitStorage dflt b = Some b3
        ∧ nondecreasing (rptr_ b3)
        ∧ back (rptr_ b3) = Some (Z.of_nat (length (data_ b3)))
        ∧ rptr_ b3 !! 0 = Some (default 0%Z (rptr_ b !! 0))
        ∧ (rptr_ b = [] → rptr_ b3 !! 0 = Some 0%Z)
        ∧ (rptr_ b ≠ [] → rptr_ b3 !! 0 = rptr_ b !! 0).
Proof.
  intros Hr Hmono Hrows Hfits Hne.
  destruct (InitStorage_filled dflt b Hr Hrows Hfits Hne)
    as (b3 & HI & Hptr & Hdata & _).
  exists b3. split; [done|]. rewrite Hptr, Hdata.
  pose proof (base_in_range _ Hr) as [Hbase _].
  pose proof (total_nonneg _ Hrows) as Htot.
  split; [by apply final_offsets_nondecreasing|].
  split.
  { rewrite back_final_offsets, length_resize by done. f_equal.
    rewrite wrap_small; [lia|]. unfold fits, in_range in *. lia. }
  assert (H0 : final_offsets (rptr_ b) (thread_rptr_ b) !! 0
               = Some (default 0%Z (rptr_ b !! 0))).
  { rewrite lookup_final_offsets. simpl.
    destruct (rptr_ b) as [|p rest] eqn:E.
    - rewrite lookup_grow_rptr_new; [done|simpl; lia|].
      pose proof (grow_rptr_nonempty 0%Z [] (thread_rptr_ b)) as Hn.
      destruct Hne as [?|Hne]; [done|]. specialize (Hn (or_intror Hne)).
      simpl. destruct (grow_rptr _ _ _); [done|simpl; lia].
    - by rewrite lookup_grow_rptr_old by (simpl; lia). }
  split; [done|]. split.
  - intros E. by rewrite H0, E.
  - intros Hn. rewrite H0. by destruct (rptr_ b).
Qed.

(** C2, counterexample: after the first build [ptr = [0, 1, 2]]; step 3 of
    the second build leaves [ptr[0] = 0], which is not the [ptr.back() = 2]
    of the first build. Besides, budgets whose sum wraps around give
    offsets that decrease, and with no thread and an empty [ptr] step 3
    reads the last element of an empty vector. *)
Lemma ptr_head_is_not_prior_back :
  (∃ b1 b3 : builder Z,
     first_build 0%Z 100%Z 200%Z 0 = Some b1
     ∧ second_storage 0%Z 0 b1 = Some b3
     ∧ back (rptr_ b1) = Some 2%Z
     ∧ rptr_ b3 !! 0 = Some 0%Z
     ∧ rptr_ b3 !! 0 ≠ back (rptr_ b1))
  ∧ rptr_ <$> wrapped_offsets = Some [0; modulus - 1; 1]%Z
  ∧ InitStorage 0%Z (InitBudget 3 0 (fresh (ValueType:=Z) [])) = None.
Proof.
  split; [|split; vm_compute; reflexivity].
  exists (Builder [0; 1; 2]%Z [100; 200]%Z [[1; 2]]%Z),
         (Builder [0; 2; 3]%Z [100; 200; 0]%Z [[2%Z]]).
  split; [vm_compute; reflexivity|]. split; [vm_compute; reflexivity|].
  split; [reflexivity|]. split; [reflexivity|]. discriminate.
Qed.

(** C10 (frame of step 3), with the bound it needs. In append mode, on
    arrays with [ptr.back() = len(data)], when the old length plus the
    total of the budgets fits the integer type, step 3 succeeds, [data]
    does not get shorter, it grows by the total of the budgets, and its
    old cells keep their values. *)
Theorem InitStorage_keeps_data {ValueType : Type} (dflt : ValueType)
    (b : builder ValueType) :
  rptr_ b ≠ [] →
  back (rptr_ b) = Some (Z.of_nat (length (data_ b))) →
  cells_in_range (rptr_ b) →
  table_in_range (thread_rptr_ b) →
  fits (rptr_ b) (thread_rptr_ b) →
  ∃ b3, InitStorage dflt b = Some b3
        ∧ length (data_ b) ≤ length (data_ b3)
        ∧ length (data_ b3)
          = length (data_ b) + Z.to_nat (total (thread_rptr_ b))
        ∧ back (rptr_ b3) = Some (Z.of_nat (length (data_ b3)))
        ∧ take (length (data_ b)) (data_ b3) = data_ b
        ∧ ∀ i, i < length (data_ b) → data_ b3 !! i = data_ b !! i.
Proof.
  intros Hne Hback Hr Hrows Hfits.
  destruct (InitStorage_filled dflt b Hr Hrows Hfits (or_introl Hne))
    as (b3 & HI & Hptr & Hdata & _).
  pose proof (total_nonneg _ Hrows) as Htot.
  exists b3. split; [done|]. rewrite Hdata, Hptr, Hback in *. simpl.
  rewrite length_resize.
  split; [lia|]. split; [lia|]. split.
  { rewrite back_final_offsets by auto. rewrite Hback. simpl. f_equal.
    rewrite wrap_small; [lia|]. unfold fits in Hfits. rewrite Hback in Hfits.
    simpl in Hfits. unfold in_range. lia. }
  split.
  - rewrite take_resize_le by lia. apply resize_all.
  - intros i Hi. apply lookup_resize; lia.
Qed.

(** C10, counterexample: with a budget of [2^64 - 1] on arrays that hold
    five values, the sum wraps around and step 3 cuts [data] to four
    values. *)
Lemma InitStorage_can_shrink :
  back (rptr_ five_values) = Some (Z.of_nat (length (data_ five_values)))
  ∧ ∃ b2 b3 : builder Z,
      huge_budget = Some b2
      ∧ InitStorage 0%Z b2 = Some b3
      ∧ rptr_ b3 = [0; 4]%Z
      ∧ data_ b3 = [1; 2; 3; 4]%Z
      ∧ length (data_ b3) < length (data_ five_values).
Proof.
  split; [reflexivity|].
  exists (Builder [0; 5]%Z [1; 2; 3; 4; 5]%Z [[18446744073709551615%Z]]),
         (Builder [0; 4]%Z [1; 2; 3; 4]%Z [[5%Z]]).
  split; [vm_compute; reflexivity|]. split; [vm_compute; reflexivity|].
  split; [reflexivity|]. split; [reflexivity|]. simpl. lia.
Qed.

(** C7 (append scenario), as the code has it. The first build, on one
    thread with the budgets [{0:1, 1:1}] and the pushes [(0,a)], [(1,b)],
    gives [ptr = [0, 1, 2]] and [data = [a, b]]. The second build on the
    same arrays, with the budget [{0:1}] and the push [(0,c)], gives
    [ptr = [0, 2, 3]] and [data = [a, b, c]]: the value [c] is written at
    the end of [data], the segment of key 0 is [data[0:2] = [a, b]] and
    that of key 1 is [data[2:3] = [c]]. *)
Theorem append_scenario {ValueType : Type} (dflt a b c : ValueType)
    (nkeys1 nkeys2 : nat) :
  nkeys1 ≤ 2 → nkeys2 ≤ 2 →
  first_build dflt a b nkeys1
  = Some (Builder [0; 1; 2]%Z [a; b] [[1; 2]]%Z)
  ∧ ∃ b2,
      second_build dflt c nkeys2 (Builder [0; 1; 2]%Z [a; b] [[1; 2]]%Z)
      = Some b2
      ∧ rptr_ b2 = [0; 2; 3]%Z
      ∧ data_ b2 = [a; b; c]
      ∧ data_ b2 !! 2 = Some c
      ∧ segment b2 0 = Some [a; b]
      ∧ segment b2 1 = Some [c].
Proof.
  intros H1 H2. split.
  - destruct nkeys1 as [|[|[|?]]]; [| | |lia]; vm_compute; reflexivity.
  - exists (Builder [0; 2; 3]%Z [a; b; c]
              (if decide (nkeys2 = 2) then [[3; 3]]%Z else [[3%Z]])).
    destruct nkeys2 as [|[|[|?]]]; [| | |lia];
      (split; [vm_compute; reflexivity|]); repeat split.
Qed.

Lemma append_scenario_witness :
  first_build 0%Z 100%Z 200%Z 0
  = Some (Builder [0; 1; 2]%Z [100; 200]%Z [[1; 2]]%Z)
  ∧ ∃ b2,
      second_build 0%Z 300%Z 0 (Builder [0; 1; 2]%Z [100; 200]%Z [[1; 2]]%Z)
      = Some b2
      ∧ rptr_ b2 = [0; 2; 3]%Z
      ∧ data_ b2 = [100; 200; 300]%Z
      ∧ data_ b2 !! 2 = Some 300%Z
      ∧ segment b2 0 = Some [100; 200]%Z
      ∧ segment b2 1 = Some [300%Z].
Proof.
  apply (append_scenario 0%Z 100%Z 200%Z 300%Z 0 0); lia.
Defined.

(** C7, counterexample: the second build does not give [ptr = [0, 2, 2]],
    and the segment of key 0 is not [[a, c]]. *)
Lemma append_scenario_differs :
  ∃ b1 b2 : builder Z,
    first_build 0%Z 100%Z 200%Z 0 = Some b1
    ∧ second_build 0%Z 300%Z 0 b1 = Some b2
    ∧ rptr_ b2 ≠ [0; 2; 2]%Z
    ∧ segment b2 0 ≠ Some [100; 300]%Z.
Proof.
  exists (Builder [0; 1; 2]%Z [100; 200]%Z [[1; 2]]%Z),
         (Builder [0; 2; 3]%Z [100; 200; 300]%Z [[3%Z]]).
  split; [vm_compute; reflexivity|]. split; [vm_compute; reflexivity|].
  split; vm_compute; discriminate.
Qed.

(** ** The ranges of the threads in a segment *)

Lemma sumZ_locate (l : list Z) (q : Z) :
  Forall (λ x, 0 ≤ x)%Z l → (0 ≤ q < sumZ l)%Z →
  ∃ t, t < length l ∧ (sumZ (take t l) ≤ q < sumZ (take (S t) l))%Z.
Proof.
  intros Hl. revert q. induction Hl as [|x l Hx _ IH]; intros q Hq; simpl in *.
  - lia.
  - destruct (decide (q < x)%Z) as [Hlt|Hge].
    + exists 0. rewrite take_0. simpl. lia.
    + destruct (IH (q - x)%Z) as (t & Ht & Hs); [lia|].
      exists (S t). simpl in *. split; [lia|]. lia.
Qed.

(** C5 (slot uniqueness), as the code has it. After step 3, for every key
    [k] beyond the keys of the incoming offsets, [len(ptr) <= k + 1] (every
    key, in a fresh build), when the total fits the integer type: every thread
    with a cell for [k] has its cursor inside [ptr[k], ptr[k+1]] with
    room for exactly its budget; the ranges of two threads follow each
    other in the order of the thread ids, so they are disjoint; and every
    cell of the segment is in the range of some thread. *)
Theorem slot_ranges {ValueType : Type} (dflt : ValueType)
    (b : builder ValueType) :
  cells_in_range (rptr_ b) →
  table_in_range (thread_rptr_ b) →
  fits (rptr_ b) (thread_rptr_ b) →
  rptr_ b ≠ [] ∨ thread_rptr_ b ≠ [] →
  ∃ b3, InitStorage dflt b = Some b3 ∧
    ∀ k, length (rptr_ b) ≤ k + 1 → k + 1 < length (rptr_ b3) →
      ∃ lo hi,
        rptr_ b3 !! k = Some lo ∧ rptr_ b3 !! (k + 1) = Some hi
        ∧ (0 ≤ lo ≤ hi)%Z ∧ (hi ≤ Z.of_nat (length (data_ b3)))%Z
        ∧ (hi - lo = key_total (thread_rptr_ b) k)%Z
        ∧ (∀ t row c,
             thread_rptr_ b !! t = Some row → row !! k = Some c →
             ∃ cur, cursor b3 t k = Some cur
                    ∧ (lo ≤ cur)%Z ∧ (cur + c ≤ hi)%Z
                    ∧ cur = (lo + sumZ (take t (column (thread_rptr_ b) k)))%Z)
        ∧ (∀ t t' cur cur',
             t < t' → cursor b3 t k = Some cur → cursor b3 t' k = Some cur' →
             (cur + budget (thread_rptr_ b) t k ≤ cur')%Z)
        ∧ (∀ p, (lo ≤ p < hi)%Z →
             ∃ t row c cur,
               thread_rptr_ b !! t = Some row ∧ row !! k = Some c
               ∧ cursor b3 t k = Some cur ∧ (cur ≤ p < cur + c)%Z).
Proof.
  intros Hr Hrows Hfits Hne.
  destruct (InitStorage_filled dflt b Hr Hrows Hfits Hne)
    as (b3 & HI & Hptr & Hdata & Hcur & _).
  exists b3. split; [done|]. intros k Hnew Hk.
  set (rows := thread_rptr_ b) in *.
  set (base := default 0%Z (back (rptr_ b))) in *.
  pose proof (base_in_range _ Hr) as [Hbase _]. fold base in Hbase.
  pose proof (cum_nonneg rows k Hrows) as Hcum.
  pose proof (key_total_nonneg rows k Hrows) as Hkt.
  pose proof (cum_le_total rows (S k) Hrows) as Htot. simpl in Htot.
  assert (Hcursor : ∀ t row c, rows !! t = Some row → row !! k = Some c →
            cursor b3 t k = Some (base + start rows t k)%Z
            ∧ c = budget rows t k).
  { intros t row c Ht Hc. unfold cursor. rewrite Hcur. unfold cursors_after.
    rewrite list_lookup_imap, Ht. simpl. rewrite list_lookup_imap, Hc. simpl.
    split.
    - f_equal. rewrite (cursor_exact rows base Hrows Hbase Hfits t k 0); [lia|].
      pose proof (budget_nonneg rows t k Hrows). lia.
    - unfold budget, cell. by rewrite Ht; simpl; rewrite Hc. }
  assert (Hcursor' : ∀ t cur, cursor b3 t k = Some cur →
            cur = (base + start rows t k)%Z).
  { intros t cur Hc. unfold cursor in Hc. rewrite Hcur in Hc.
    unfold cursors_after in Hc. rewrite list_lookup_imap in Hc.
    destruct (rows !! t) as [row|] eqn:Ht; [|done]. simpl in Hc.
    rewrite list_lookup_imap in Hc.
    destruct (row !! k) as [c|] eqn:Hck; [|done].
    destruct (Hcursor t row c Ht Hck) as [Hc' _].
    unfold cursor in Hc'. rewrite Hcur in Hc'. unfold cursors_after in Hc'.
    rewrite list_lookup_imap, Ht in Hc'. simpl in Hc'.
    rewrite list_lookup_imap in Hc'. congruence. }
  exists (base + cum rows k)%Z, (base + cum rows (S k))%Z.
  rewrite Hptr in Hk |- *.
  split; [apply new_key_offset; try done; lia|].
  split.
  { replace (k + 1) with (S k) by lia.
    apply new_key_offset; try done; lia. }
  split; [simpl; lia|].
  split; [rewrite Hdata, length_resize; simpl; unfold fits in Hfits; lia|].
  split; [simpl; lia|].
  split; [|split].
  - intros t row c Ht Hc. destruct (Hcursor t row c Ht Hc) as [Hcu ->].
    eexists. split; [done|].
    pose proof (start_ge_cum rows t k Hrows).
    pose proof (start_end_le_cum rows t k Hrows). simpl in *.
    split; [lia|]. split; [lia|]. unfold start. lia.
  - intros t t' cur cur' Hlt Hc Hc'.
    rewrite (Hcursor' _ _ Hc), (Hcursor' _ _ Hc').
    pose proof (ranges_ordered rows t k t' k Hrows (or_intror (conj eq_refl Hlt))).
    lia.
  - intros p Hp. simpl in Hp.
    destruct (sumZ_locate (column rows k) (p - base - cum rows k))
      as (t & Ht & Hs).
    { by apply column_nonneg. }
    { unfold key_total in *. lia. }
    rewrite sumZ_take_S, <-budget_column in Hs.
    destruct (budget_positive_cell rows t k) as (row & c & Hrow & Hc); [lia|].
    destruct (Hcursor t row c Hrow Hc) as [Hcu ->].
    exists t, row, (budget rows t k), (base + start rows t k)%Z.
    do 3 (split; [done|]). unfold start. lia.
Qed.

(** C5, counterexample: in the second build of the append scenario the
    only thread has a budget of one value for key 0; after step 3 the
    segment of key 0 is [data[0:2]], and the cursor of the thread is 2,
    outside of it. Besides, with two threads that declare [2^63] values
    each the sum wraps around: the segment of key 0 is empty and the
    cursor of thread 1 is [2^63]. *)
Lemma append_cursor_outside_segment :
  (∃ b1 b2 b3 : builder Z,
     first_build 0%Z 100%Z 200%Z 0 = Some b1
     ∧ add_budgets [(0, 0, 1%Z)] (InitBudget 0 1 b1) = Some b2
     ∧ budget (thread_rptr_ b2) 0 0 = 1%Z
     ∧ InitStorage 0%Z b2 = Some b3
     ∧ rptr_ b3 !! 0 = Some 0%Z
     ∧ rptr_ b3 !! 1 = Some 2%Z
     ∧ cursor b3 0 0 = Some 2%Z
     ∧ ¬ (2 + 1 ≤ 2)%Z)
  ∧ wrapped_ranges = Some (Builder [0; 0]%Z [] [[0]; [2 ^ 63]]%Z).
Proof.
  split; [|vm_compute; reflexivity].
  exists (Builder [0; 1; 2]%Z [100; 200]%Z [[1; 2]]%Z),
         (Builder [0; 1; 2]%Z [100; 200]%Z [[1%Z]]),
         (Builder [0; 2; 3]%Z [100; 200; 0]%Z [[2%Z]]).
  split; [vm_compute; reflexivity|]. split; [vm_compute; reflexivity|].
  split; [reflexivity|]. split; [vm_compute; reflexivity|].
  split; [reflexivity|]. split; [reflexivity|]. split; [reflexivity|]. lia.
Qed.

(** ** The cells written by the calls of phase 4 *)

Section Slots.

Context {ValueType : Type}.
Variable dflt : ValueType.
Implicit Types b : builder ValueType.
Implicit Types pushes : list (push_call ValueType).

Lemma pushed_take_S pushes i key v tid :
  pushes !! i = Some (key, v, tid) →
  pushed tid key (take (S i) pushes) = pushed tid key (take i pushes) ++ [v].
Proof.
  intros Hi. rewrite (take_S_r pushes i _ Hi), pushed_app. simpl.
  by rewrite decide_True.
Qed.

Lemma pushed_take_mono pushes t k i j :
  i ≤ j →
  length (pushed t k (take i pushes)) ≤ length (pushed t k (take j pushes)).
Proof.
  intros Hij. replace j with (i + (j - i)) by lia.
  rewrite <-take_take_drop, pushed_app, length_app. lia.
Qed.

Lemma pushed_take_le pushes t k i :
  length (pushed t k (take i pushes)) ≤ length (pushed t k pushes).
Proof.
  rewrite <-(take_drop i pushes) at 2. rewrite pushed_app, length_app. lia.
Qed.

Lemma pushed_take_lt pushes i j key v tid :
  i < j → pushes !! i = Some (key, v, tid) →
  length (pushed tid key (take i pushes))
  < length (pushed tid key (take j pushes)).
Proof.
  intros Hij Hi.
  pose proof (pushed_take_mono pushes tid key (S i) j ltac:(lia)) as Hm.
  rewrite (pushed_take_S _ _ _ _ _ Hi), length_app in Hm. simpl in Hm. lia.
Qed.

Lemma pushed_lookup_take pushes i key v tid :
  pushes !! i = Some (key, v, tid) →
  pushed tid key pushes !! length (pushed tid key (take i pushes)) = Some v.
Proof.
  intros Hi. pose proof (take_drop_middle pushes i _ Hi) as E.
  set (n := length (pushed tid key (take i pushes))).
  rewrite <-E, pushed_app. simpl. rewrite decide_True by done.
  by rewrite list_lookup_middle.
Qed.

(** The effect of one successful [Push] on the cursors. *)
Lemma Push_cursor key v tid b b' :
  sane b → Push key v tid b = Some b' →
  ∃ rp, cursor b tid key = Some rp
        ∧ (0 ≤ rp)%Z
        ∧ push_slot key tid b = Some (Z.to_nat rp)
        ∧ cursor b' tid key = Some (rp + 1)%Z
        ∧ (∀ t k c, cursor b t k = Some c →
             ∃ c', cursor b' t k = Some c' ∧ (c ≤ c')%Z)
        ∧ sane b'.
Proof.
  intros [Hrows Hlen] HP. unfold Push, push_slot, cursor in *.
  destruct (thread_rptr_ b !! tid) as [trptr|] eqn:Ht; [|done]. simpl in *.
  destruct (trptr !! key) as [rp|] eqn:Hk; [|done]. simpl in *.
  case_decide as Hin; [|done]. injection HP as <-. simpl.
  assert (Hrp : in_range rp).
  { eapply Forall_lookup_1; [|exact Hk]. by eapply Forall_lookup_1. }
  assert (Hw : wrap (rp + 1) = (rp + 1)%Z).
  { apply wrap_small. unfold in_range in *. lia. }
  exists rp. split; [done|]. split; [unfold in_range in Hrp; lia|].
  split; [done|].
  pose proof (lookup_lt_Some _ _ _ Ht) as Htl.
  pose proof (lookup_lt_Some _ _ _ Hk) as Hkl.
  split.
  { rewrite list_lookup_insert_eq by done. simpl.
    rewrite list_lookup_insert_eq by done. by rewrite Hw. }
  split.
  - intros t k c Hc. rewrite list_lookup_insert.
    destruct (decide (tid = t ∧ tid < length (thread_rptr_ b))) as [[<- _]|Hne].
    + simpl. rewrite Ht in Hc. simpl in Hc. rewrite list_lookup_insert.
      destruct (decide (key = k ∧ key < length trptr)) as [[<- _]|Hne].
      * exists (wrap (rp + 1)). split; [done|]. rewrite Hw. simplify_eq. lia.
      * exists c. split; [done|lia].
    + exists c. split; [done|lia].
  - split; simpl.
    + apply Forall_insert; [done|]. apply Forall_insert; [|apply wrap_in_range].
      by eapply Forall_lookup_1.
    + by rewrite length_insert.
Qed.

(** A later call for a pair writes at or after the current cursor of the
    pair. *)
Lemma slots_ge_cursor pushes : ∀ b slots,
  sane b → push_slots pushes b = Some slots →
  ∀ tid key rp, cursor b tid key = Some rp →
  ∀ j vj, pushes !! j = Some (key, vj, tid) →
  ∃ pj, slots !! j = Some pj ∧ (rp ≤ Z.of_nat pj)%Z.
Proof.
  induction pushes as [|[[k0 v0] t0] rest IH];
    intros b slots Hsane Hslots tid key rp Hcur j vj Hj.
  - by rewrite lookup_nil in Hj.
  - simpl in Hslots.
    destruct (push_slot k0 t0 b) as [p|] eqn:Hp; [|done]. simpl in Hslots.
    destruct (Push k0 v0 t0 b) as [b'|] eqn:HP; [|done]. simpl in Hslots.
    destruct (push_slots rest b') as [ps|] eqn:Hps; [|done].
    injection Hslots as <-.
    destruct (Push_cursor _ _ _ _ _ Hsane HP)
      as (rp0 & Hc0 & Hrp0 & Hslot & Hc1 & Hmono & Hsane').
    destruct j as [|j]; simpl in *.
    + injection Hj as -> -> ->. rewrite Hc0 in Hcur. injection Hcur as <-.
      rewrite Hslot in Hp. injection Hp as <-. eexists. split; [done|]. lia.
    + destruct (Hmono _ _ _ Hcur) as (c' & Hc' & Hle).
      destruct (IH b' ps Hsane' Hps tid key c' Hc' j vj Hj) as (pj & Hpj & Hge).
      exists pj. split; [done|lia].
Qed.

Lemma slots_increasing pushes : ∀ b slots,
  sane b → push_slots pushes b = Some slots →
  ∀ i j key vi vj tid,
    i < j →
    pushes !! i = Some (key, vi, tid) → pushes !! j = Some (key, vj, tid) →
    ∃ pi pj, slots !! i = Some pi ∧ slots !! j = Some pj ∧ pi < pj.
Proof.
  induction pushes as [|[[k0 v0] t0] rest IH];
    intros b slots Hsane Hslots i j key vi vj tid Hij Hi Hj.
  - by rewrite lookup_nil in Hi.
  - simpl in Hslots.
    destruct (push_slot k0 t0 b) as [p|] eqn:Hp; [|done]. simpl in Hslots.
    destruct (Push k0 v0 t0 b) as [b'|] eqn:HP; [|done]. simpl in Hslots.
    destruct (push_slots rest b') as [ps|] eqn:Hps; [|done].
    injection Hslots as <-.
    destruct (Push_cursor _ _ _ _ _ Hsane HP)
      as (rp0 & Hc0 & Hrp0 & Hslot & Hc1 & Hmono & Hsane').
    destruct j as [|j]; [lia|]. destruct i as [|i]; simpl in *.
    + injection Hi as -> -> ->.
      rewrite Hslot in Hp. injection Hp as <-.
      destruct (slots_ge_cursor rest b' ps Hsane' Hps tid key _ Hc1 j vj Hj)
        as (pj & Hpj & Hge).
      exists (Z.to_nat rp0), pj. split; [done|]. split; [done|]. lia.
    + apply (IH b' ps Hsane' Hps i j key vi vj tid); [lia|done|done].
Qed.

Lemma InitStorage_sane b b3 :
  cells_in_range (rptr_ b) → InitStorage dflt b = Some b3 → sane b3.
Proof.
  intros Hr HI.
  apply InitStorage_Some_inv in HI as (Hne & Hptr & Hcur & Hdata).
  split.
  - rewrite Hcur, final_cursors_eq. unfold cursor_table.
    apply Forall_lookup. intros t row' Ht.
    apply list_lookup_imap_Some in Ht as (row & _ & ->).
    apply Forall_lookup. intros k c Hk.
    apply list_lookup_imap_Some in Hk as (c0 & _ & ->). apply wrap_in_range.
  - rewrite Hdata, length_resize, Hptr, back_final_offsets by done. simpl.
    pose proof (wrap_in_range (default 0%Z (back (rptr_ b))
                               + total (thread_rptr_ b))) as [??]. lia.
Qed.

End Slots.

(** C8 (order within a thread). After step 3, in any run of [Push] calls
    that stays in bounds, two calls of the same thread with the same key
    write at strictly increasing positions, in the order of the calls;
    and when the pushes match the budgets (and the total fits the integer
    type), the run does stay in bounds, the positions are increasing in
    that way, and every value is found in the final [data] at the position
    its call wrote, so the values of a thread for a key stand in [data] in
    the order they were pushed. *)
Theorem push_order {ValueType : Type} (dflt : ValueType)
    (b b3 : builder ValueType) (pushes : list (push_call ValueType)) :
  cells_in_range (rptr_ b) →
  InitStorage dflt b = Some b3 →
  (∀ slots, push_slots pushes b3 = Some slots →
     ∀ i j key vi vj tid,
       i < j →
       pushes !! i = Some (key, vi, tid) → pushes !! j = Some (key, vj, tid) →
       ∃ pi pj, slots !! i = Some pi ∧ slots !! j = Some pj ∧ pi < pj)
  ∧ (table_in_range (thread_rptr_ b) →
     fits (rptr_ b) (thread_rptr_ b) →
     conserved (thread_rptr_ b) pushes →
     ∃ slots b4,
       push_slots pushes b3 = Some slots
       ∧ push_all pushes b3 = Some b4
       ∧ (∀ i j key vi vj tid,
            i < j →
            pushes !! i = Some (key, vi, tid) →
            pushes !! j = Some (key, vj, tid) →
            ∃ pi pj, slots !! i = Some pi ∧ slots !! j = Some pj ∧ pi < pj)
       ∧ ∀ i key v tid, pushes !! i = Some (key, v, tid) →
           ∃ p, slots !! i = Some p ∧ data_ b4 !! p = Some v).
Proof.
  intros Hr HI.
  assert (Hinc : ∀ slots, push_slots pushes b3 = Some slots →
     ∀ i j key vi vj tid,
       i < j →
       pushes !! i = Some (key, vi, tid) → pushes !! j = Some (key, vj, tid) →
       ∃ pi pj, slots !! i = Some pi ∧ slots !! j = Some pj ∧ pi < pj).
  { intros slots Hslots. apply (slots_increasing pushes b3 slots); [|done].
    by eapply InitStorage_sane. }
  split; [done|].
  intros Hrows Hfits Hcons.
  pose proof (InitStorage_Some_inv dflt b b3 HI) as (Hne & _).
  destruct (matched_build dflt b pushes Hr Hrows Hfits Hne Hcons)
    as (b3' & b4 & slots & HI' & Hall & Hslots & _ & _ & Hfill & _ & Hpos).
  rewrite HI in HI'. injection HI' as <-.
  exists slots, b4. split; [done|]. split; [done|].
  split; [by apply Hinc|].
  intros i key v tid Hi.
  eexists. split; [by apply (Hpos i key v tid)|].
  destruct Hfill as (_ & _ & Hdata). apply Hdata.
  by apply pushed_lookup_take.
Qed.

Lemma push_order_witness :
  (∀ slots,
     push_slots [(0, 7%Z, 0); (0, 8%Z, 0)] (Builder [0; 2]%Z [0; 0]%Z [[0%Z]])
     = Some slots →
     ∀ i j key vi vj tid,
       i < j →
       [(0, 7%Z, 0); (0, 8%Z, 0)] !! i = Some (key, vi, tid) →
       [(0, 7%Z, 0); (0, 8%Z, 0)] !! j = Some (key, vj, tid) →
       ∃ pi pj, slots !! i = Some pi ∧ slots !! j = Some pj ∧ pi < pj)
  ∧ ∃ slots b4,
      push_slots [(0, 7%Z, 0); (0, 8%Z, 0)] (Builder [0; 2]%Z [0; 0]%Z [[0%Z]])
      = Some slots
      ∧ push_all [(0, 7%Z, 0); (0, 8%Z, 0)] (Builder [0; 2]%Z [0; 0]%Z [[0%Z]])
        = Some b4
      ∧ (∀ i j key vi vj tid,
           i < j →
           [(0, 7%Z, 0); (0, 8%Z, 0)] !! i = Some (key, vi, tid) →
           [(0, 7%Z, 0); (0, 8%Z, 0)] !! j = Some (key, vj, tid) →
           ∃ pi pj, slots !! i = Some pi ∧ slots !! j = Some pj ∧ pi < pj)
      ∧ ∀ i key v tid,
          [(0, 7%Z, 0); (0, 8%Z, 0)] !! i = Some (key, v, tid) →
          ∃ p, slots !! i = Some p ∧ data_ b4 !! p = Some v.
Proof.
  destruct (push_order 0%Z (Builder [] [] [[2%Z]])
              (Builder [0; 2]%Z [0; 0]%Z [[0%Z]])
              [(0, 7%Z, 0); (0, 8%Z, 0)]) as [H1 H2].
  - constructor.
  - vm_compute. reflexivity.
  - split; [exact H1|]. apply H2.
    + repeat constructor; by compute.
    + vm_compute. reflexivity.
    + intros [|t] [|k]; vm_compute; reflexivity.
Defined.

(** C9 (bounds of [Push]). When the phases are called in order on arrays
    whose offsets are values of the integer type, with at least one thread
    or a non-empty [ptr], the pushes match the budgets and the final
    length of [data] fits the integer type, then every call of [Push] is
    in bounds: its thread id is one of phase 1, its key has a cell in the
    row of the thread, the position it writes is below the length of
    [data], and no two calls write the same cell. *)
Theorem pushes_in_bounds {ValueType : Type} (dflt : ValueType)
    (nkeys nthread : nat) (budgets : list budget_call)
    (pushes : list (push_call ValueType)) (b b2 : builder ValueType) :
  cells_in_range (rptr_ b) →
  rptr_ b ≠ [] ∨ 0 < nthread →
  add_budgets budgets (InitBudget nkeys nthread b) = Some b2 →
  fits (rptr_ b) (thread_rptr_ b2) →
  conserved (thread_rptr_ b2) pushes →
  ∃ b3 b4 slots,
    InitStorage dflt b2 = Some b3
    ∧ push_all pushes b3 = Some b4
    ∧ build dflt nkeys nthread budgets pushes b = Some b4
    ∧ push_slots pushes b3 = Some slots
    ∧ length slots = length pushes
    ∧ Forall (λ p, p < length (data_ b3)) slots
    ∧ NoDup slots
    ∧ Forall (λ c : push_call ValueType,
                c.2 < nthread
                ∧ ∃ row, thread_rptr_ b3 !! c.2 = Some row
                         ∧ c.1.1 < length row) pushes.
Proof.
  intros Hr Hne H2 Hfits Hcons.
  destruct (phase2_state _ _ _ _ _ H2) as (Hrptr & Hdata & Hlen & Hrows).
  rewrite <-Hrptr in Hr, Hfits.
  assert (Hne2 : rptr_ b2 ≠ [] ∨ thread_rptr_ b2 ≠ []).
  { destruct Hne as [?|Hn]; [left; by rewrite Hrptr|right].
    intros E. rewrite E in Hlen. simpl in Hlen. lia. }
  destruct (matched_build dflt b2 pushes Hr Hrows Hfits Hne2 Hcons)
    as (b3 & b4 & slots & HI & Hall & Hslots & _ & Hd3 & Hfill & Hsl & Hpos).
  pose proof (base_in_range _ Hr) as [Hbase _].
  set (rows := thread_rptr_ b2) in *.
  set (base := default 0%Z (back (rptr_ b2))) in *.
  assert (Hrank : ∀ i key v tid, pushes !! i = Some (key, v, tid) →
            (Z.of_nat (length (pushed tid key (take i pushes)))
             < budget rows tid key)%Z).
  { intros i key v tid Hi. rewrite <-(Hcons tid key).
    pose proof (pushed_lookup_take pushes i key v tid Hi) as Hl.
    apply lookup_lt_Some in Hl. lia. }
  exists b3, b4, slots. split; [done|]. split; [done|].
  split; [unfold build; rewrite H2; simpl; by rewrite HI|].
  split; [done|]. split; [done|]. split; [|split].
  - apply Forall_lookup. intros i p Hp.
    destruct (lookup_lt_is_Some_2 pushes i) as [[[key v] tid] Hi].
    { rewrite <-Hsl. by eapply lookup_lt_Some. }
    rewrite (Hpos i key v tid Hi) in Hp. injection Hp as <-.
    rewrite Hd3, length_resize.
    apply (slot_in_data rows base Hrows Hbase). by eapply Hrank.
  - apply NoDup_alt. intros i j p Hpi Hpj.
    destruct (lookup_lt_is_Some_2 pushes i) as [[[key v] tid] Hi].
    { rewrite <-Hsl. by eapply lookup_lt_Some. }
    destruct (lookup_lt_is_Some_2 pushes j) as [[[key' v'] tid'] Hj].
    { rewrite <-Hsl. by eapply lookup_lt_Some. }
    rewrite (Hpos i key v tid Hi) in Hpi. injection Hpi as <-.
    rewrite (Hpos j key' v' tid' Hj) in Hpj.
    injection Hpj as Heq.
    apply (slot_of_inj rows base Hrows Hbase) in Heq as (-> & -> & Hn);
      [| by eapply Hrank | by eapply Hrank].
    destruct (lt_eq_lt_dec i j) as [[Hlt|?]|Hlt]; [|done|].
    + pose proof (pushed_take_lt pushes i j key v tid Hlt Hi). lia.
    + pose proof (pushed_take_lt pushes j i key v' tid Hlt Hj). lia.
  - apply Forall_forall. intros [[key v] tid] Hin. simpl.
    destruct (conserved_call rows pushes key v tid Hcons Hin)
      as (row & c & Ht & Hc).
    split; [rewrite <-Hlen; by eapply lookup_lt_Some|].
    apply InitStorage_Some_inv in HI as (_ & _ & Hcur & _).
    rewrite Hcur, final_cursors_eq. unfold cursor_table.
    rewrite list_lookup_imap. fold rows. rewrite Ht. simpl.
    eexists. split; [done|]. rewrite length_imap. by eapply lookup_lt_Some.
Qed.

Lemma pushes_in_bounds_witness :
  ∃ b3 b4 slots,
    InitStorage 0%Z (Builder [] [] [[1; 1]; [0; 1]]%Z) = Some b3
    ∧ push_all example_pushes b3 = Some b4
    ∧ build 0%Z 0 2 example_budgets example_pushes (fresh []) = Some b4
    ∧ push_slots example_pushes b3 = Some slots
    ∧ length slots = length example_pushes
    ∧ Forall (λ p, p < length (data_ b3)) slots
    ∧ NoDup slots
    ∧ Forall (λ c : push_call Z,
                c.2 < 2
                ∧ ∃ row, thread_rptr_ b3 !! c.2 = Some row
                         ∧ c.1.1 < length row) example_pushes.
Proof.
  apply (pushes_in_bounds 0%Z 0 2 example_budgets example_pushes (fresh [])
           (Builder [] [] [[1; 1]; [0; 1]]%Z)).
  - constructor.
  - right. lia.
  - vm_compute. reflexivity.
  - vm_compute. reflexivity.
  - intros [|[|t]] [|[|k]]; vm_compute; reflexivity.
Defined.

(** ** Instances *)



Lemma appended_nondecreasing : nondecreasing (rptr_ appended).
Proof.
  intros [|[|[|i]]] [|[|[|j]]] x y Hij Hx Hy; simpl in *; simplify_eq; lia.
Defined.

Lemma appended_in_range :
  cells_in_range (rptr_ appended) ∧ table_in_range (thread_rptr_ appended).
Proof. split; repeat constructor; by compute. Defined.

Lemma offsets_after_InitStorage_witness :
  ∃ b3, InitStorage 0%Z appended = Some b3
        ∧ nondecreasing (rptr_ b3)
        ∧ back (rptr_ b3) = Some (Z.of_nat (length (data_ b3)))
        ∧ rptr_ b3 !! 0 = Some (default 0%Z (rptr_ appended !! 0))
        ∧ (rptr_ appended = [] → rptr_ b3 !! 0 = Some 0%Z)
        ∧ (rptr_ appended ≠ [] → rptr_ b3 !! 0 = rptr_ appended !! 0).
Proof.
  apply (offsets_after_InitStorage 0%Z appended).
  - apply appended_in_range.
  - apply appended_nondecreasing.
  - apply appended_in_range.
  - vm_compute. reflexivity.
  - left. discriminate.
Defined.

Lemma InitStorage_keeps_data_witness :
  ∃ b3, InitStorage 0%Z appended = Some b3
        ∧ length (data_ appended) ≤ length (data_ b3)
        ∧ length (data_ b3)
          = length (data_ appended) + Z.to_nat (total (thread_rptr_ appended))
        ∧ back (rptr_ b3) = Some (Z.of_nat (length (data_ b3)))
        ∧ take (length (data_ appended)) (data_ b3) = data_ appended
        ∧ ∀ i, i < length (data_ appended) → data_ b3 !! i = data_ appended !! i.
Proof.
  apply (InitStorage_keeps_data 0%Z appended).
  - discriminate.
  - reflexivity.
  - apply appended_in_range.
  - apply appended_in_range.
  - vm_compute. reflexivity.
Defined.

Lemma slot_ranges_witness :
  ∃ b3, InitStorage 0%Z (Builder [] [] [[1; 1]; [0; 1]]%Z) = Some b3
        ∧ ∃ lo hi,
            rptr_ b3 !! 1 = Some lo ∧ rptr_ b3 !! (1 + 1) = Some hi
            ∧ (0 ≤ lo ≤ hi)%Z ∧ (hi ≤ Z.of_nat (length (data_ b3)))%Z
            ∧ (hi - lo = key_total [[1; 1]; [0; 1]] 1)%Z.
Proof.
  destruct (slot_ranges 0%Z (Builder [] [] [[1; 1]; [0; 1]]%Z))
    as (b3 & HI & Hk).
  - constructor.
  - repeat constructor; by compute.
  - vm_compute. reflexivity.
  - right. discriminate.
  - exists b3. split; [exact HI|].
    destruct (Hk 1) as (lo & hi & H1 & H2 & H3 & H4 & H5 & _).
    + simpl. lia.
    + apply InitStorage_Some_inv in HI as (_ & -> & _). vm_compute. lia.
    + by exists lo, hi.
Defined.

(** * Further properties of the builder *)

(** ** The shape of the tables *)

Lemma max_list_insert_max (l : list nat) i a y :
  l !! i = Some a → max_list (<[i := a `max` y]> l) = max_list l `max` y.
Proof.
  revert i. induction l as [|x l IH]; intros [|i] Hi; simplify_eq/=.
  - lia.
  - rewrite (IH i Hi). lia.
Qed.

Lemma max_list_replicate n (x : nat) :
  max_list (replicate n x) = if decide (n = 0) then 0 else x.
Proof.
  induction n as [|n IH]; [done|]. simpl. rewrite IH.
  repeat case_decide; lia.
Qed.

Lemma grow_rptr_nil fill rptr : grow_rptr fill rptr [] = rptr.
Proof. done. Qed.

Lemma grow_rptr_length fill rptr rows :
  length (grow_rptr fill rptr rows)
  = length rptr `max` (if decide (rows = []) then 0 else width rows + 1).
Proof.
  case_decide as Hrows.
  - subst rows. rewrite grow_rptr_nil. lia.
  - apply Nat.le_antisymm.
    + apply grow_rptr_length_le, Forall_lookup.
      intros t row Ht. by eapply length_le_width.
    + pose proof (grow_rptr_length_ge fill rptr rows).
      pose proof (grow_rptr_width fill rptr rows Hrows). lia.
Qed.

Section Shape.

Context {ValueType : Type}.
Variable dflt : ValueType.
Implicit Types b : builder ValueType.

Lemma width_InitBudget nkeys nthread b :
  width (thread_rptr_ (InitBudget nkeys nthread b))
  = if decide (nthread = 0) then 0 else nkeys.
Proof.
  rewrite InitBudget_rows. unfold width.
  by rewrite fmap_replicate, length_replicate, max_list_replicate.
Qed.

Lemma width_AddBudget key threadid nelem b b' :
  AddBudget key threadid nelem b = Some b' →
  width (thread_rptr_ b') = width (thread_rptr_ b) `max` (key + 1).
Proof.
  intros H. destruct (thread_rptr_ b !! threadid) as [row|] eqn:Hrow.
  2: { unfold AddBudget in H. by rewrite Hrow in H. }
  rewrite (AddBudget_eq _ _ _ _ _ Hrow) in H. injection H as <-. simpl.
  unfold width. rewrite list_fmap_insert, length_insert, length_grow_row.
  apply max_list_insert_max. by rewrite list_lookup_fmap, Hrow.
Qed.

Lemma width_add_budgets calls b b' :
  add_budgets calls b = Some b' →
  width (thread_rptr_ b') = width (thread_rptr_ b) `max` key_span calls.
Proof.
  revert b. induction calls as [|[[key t] n] rest IH]; intros b H; simpl in H.
  - injection H as <-. unfold key_span. simpl. lia.
  - destruct (AddBudget key t n b) as [b1|] eqn:E; [|done]. simpl in H.
    rewrite (IH b1 H), (width_AddBudget _ _ _ _ _ E).
    unfold key_span. rewrite fmap_cons. simpl. lia.
Qed.


End Shape.

(** X1 (phase 1 resets the table). Whatever the table holds before, for
    instance the cursors left by a previous build, after
    [InitBudget(nkeys, nthread)] it has [nthread] rows of [nkeys] zeros:
    every budget is zero, [ptr] and [data] are left as they are, and an
    earlier call of [InitBudget] is forgotten. *)
Theorem InitBudget_resets {ValueType : Type} (nkeys nthread nkeys' nthread' : nat)
    (b : builder ValueType) :
  thread_rptr_ (InitBudget nkeys nthread b)
  = replicate nthread (replicate nkeys 0%Z)
  ∧ rptr_ (InitBudget nkeys nthread b) = rptr_ b
  ∧ data_ (InitBudget nkeys nthread b) = data_ b
  ∧ (∀ t k, budget (thread_rptr_ (InitBudget nkeys nthread b)) t k = 0%Z)
  ∧ InitBudget nkeys nthread (InitBudget nkeys' nthread' b)
    = InitBudget nkeys nthread b.
Proof.
  split; [apply InitBudget_rows|]. split; [done|]. split; [done|].
  split; [intros t k; apply InitBudget_budget|].
  pose proof (InitBudget_rows nkeys nthread (InitBudget nkeys' nthread' b)) as H1.
  pose proof (InitBudget_rows nkeys nthread b) as H2.
  unfold InitBudget in *. simpl in *. by rewrite H1, H2.
Qed.

(** X2 (when step 3 is defined). [InitStorage] reads [rptr_.back()] of an
    empty vector exactly when [ptr] is empty and there is no thread; in
    every other case it runs to the end, whatever the budgets. *)
Theorem InitStorage_None_iff {ValueType : Type} (dflt : ValueType)
    (b : builder ValueType) :
  InitStorage dflt b = None ↔ rptr_ b = [] ∧ thread_rptr_ b = [].
Proof.
  split.
  - intros H. destruct (rptr_ b) eqn:E1.
    + destruct (thread_rptr_ b) eqn:E2; [done|].
      rewrite InitStorage_eq in H; [done|]. right. by rewrite E2.
    + rewrite InitStorage_eq in H; [done|]. left. by rewrite E1.
  - intros [H1 H2]. by apply InitStorage_undefined.
Qed.

(** X3 (shape after step 3). [InitStorage] never shortens [ptr]: its new
    length is the larger of the old length and, when there is a thread,
    the length of the longest row plus one. The table keeps its shape:
    as many rows, each as long as before. *)
Theorem InitStorage_shape {ValueType : Type} (dflt : ValueType)
    (b b3 : builder ValueType) :
  InitStorage dflt b = Some b3 →
  length (rptr_ b3)
  = length (rptr_ b)
      `max` (if decide (thread_rptr_ b = []) then 0
             else width (thread_rptr_ b) + 1)
  ∧ length (thread_rptr_ b3) = length (thread_rptr_ b)
  ∧ ∀ t, length <$> thread_rptr_ b3 !! t = length <$> thread_rptr_ b !! t.
Proof.
  intros H. apply InitStorage_Some_inv in H as (_ & -> & -> & _).
  rewrite length_final_offsets, grow_rptr_length.
  split; [done|]. rewrite final_cursors_eq. unfold cursor_table.
  split; [by rewrite length_imap|].
  intros t. rewrite list_lookup_imap.
  destruct (thread_rptr_ b !! t) as [row|]; [|done]. simpl.
  by rewrite length_imap.
Qed.

Lemma InitStorage_shape_witness :
  length (rptr_ (Builder [0; 2; 3]%Z [100; 200; 0]%Z [[2%Z]]))
  = length (rptr_ appended)
      `max` (if decide (thread_rptr_ appended = []) then 0
             else width (thread_rptr_ appended) + 1)
  ∧ length (thread_rptr_ (Builder [0; 2; 3]%Z [100; 200; 0]%Z [[2%Z]]))
    = length (thread_rptr_ appended)
  ∧ ∀ t, length <$> thread_rptr_ (Builder [0; 2; 3]%Z [100; 200; 0]%Z [[2%Z]]) !! t
         = length <$> thread_rptr_ appended !! t.
Proof.
  apply (InitStorage_shape 0%Z appended). vm_compute. reflexivity.
Defined.


(** X5 (number of offsets). After phases 1 to 3 with at least one thread,
    [ptr] has as many entries as it had before or, if that is more, one
    more than the larger of the hint [nkeys] and the largest key declared
    plus one: in a fresh build, [max(nkeys, largest key + 1) + 1]. *)
Theorem ptr_length_after_budgets {ValueType : Type} (dflt : ValueType)
    (nkeys nthread : nat) (budgets : list budget_call)
    (b b2 : builder ValueType) :
  0 < nthread →
  add_budgets budgets (InitBudget nkeys nthread b) = Some b2 →
  ∃ b3, InitStorage dflt b2 = Some b3
        ∧ width (thread_rptr_ b2) = nkeys `max` key_span budgets
        ∧ length (rptr_ b3)
          = length (rptr_ b) `max` (nkeys `max` key_span budgets + 1)
        ∧ (rptr_ b = [] →
           length (rptr_ b3) = nkeys `max` key_span budgets + 1).
Proof.
  intros Hn H2.
  destruct (phase2_state _ _ _ _ _ H2) as (Hrptr & _ & Hlen & _).
  assert (Hne : thread_rptr_ b2 ≠ []).
  { intros E. rewrite E in Hlen. simpl in Hlen. lia. }
  assert (Hw : width (thread_rptr_ b2) = nkeys `max` key_span budgets).
  { rewrite (width_add_budgets _ _ _ H2), width_InitBudget.
    by rewrite decide_False by lia. }
  eexists. split; [apply InitStorage_eq; by right|]. simpl.
  rewrite length_final_offsets, grow_rptr_length, decide_False by done.
  rewrite Hw, Hrptr. simpl. split; [done|]. split; [done|].
  intros ->. simpl. lia.
Qed.

Lemma ptr_length_after_budgets_witness :
  ∃ b3, InitStorage 0%Z (Builder [] [] [[1; 1]; [0; 1]]%Z) = Some b3
        ∧ width (thread_rptr_ (Builder (ValueType:=Z) [] [] [[1; 1]; [0; 1]]%Z))
          = 0 `max` key_span example_budgets
        ∧ length (rptr_ b3)
          = length (rptr_ (fresh (ValueType:=Z) []))
              `max` (0 `max` key_span example_budgets + 1)
        ∧ (rptr_ (fresh (ValueType:=Z) []) = [] →
           length (rptr_ b3) = 0 `max` key_span example_budgets + 1).
Proof.
  apply (ptr_length_after_budgets 0%Z 0 2 example_budgets (fresh [])
           (Builder [] [] [[1; 1]; [0; 1]]%Z)).
  - lia.
  - vm_compute. reflexivity.
Defined.

(** ** The order of the calls of phase 2 *)

Lemma rows_eq (l1 l2 : list Z) :
  length l1 = length l2 → (∀ j, cell l1 j = cell l2 j) → l1 = l2.
Proof.
  intros Hlen Hcell. apply list_eq. intros j. specialize (Hcell j).
  unfold cell in Hcell. destruct (decide (j < length l1)) as [Hj|Hj].
  - destruct (lookup_lt_is_Some_2 l1 j Hj) as [x Hx].
    destruct (lookup_lt_is_Some_2 l2 j ltac:(lia)) as [y Hy].
    rewrite Hx, Hy in *. simpl in Hcell. by subst.
  - by rewrite !lookup_ge_None_2 by lia.
Qed.

Lemma length_bump key nelem row :
  length (bump key nelem row) = length row `max` (key + 1).
Proof. unfold bump. by rewrite length_insert, length_grow_row. Qed.

Lemma cell_bump key nelem row j :
  cell (bump key nelem row) j
  = if decide (j = key) then wrap (cell row key + nelem) else cell row j.
Proof.
  unfold bump. case_decide as Hj.
  - subst j. unfold cell at 1. rewrite list_lookup_insert_eq; [done|].
    rewrite length_grow_row. lia.
  - unfold cell at 1. rewrite list_lookup_insert_ne by done.
    apply cell_grow_row.
Qed.

Lemma bump_comm key1 nelem1 key2 nelem2 row :
  bump key2 nelem2 (bump key1 nelem1 row)
  = bump key1 nelem1 (bump key2 nelem2 row).
Proof.
  apply rows_eq.
  - rewrite !length_bump. lia.
  - intros j. rewrite !cell_bump.
    repeat case_decide; subst; try done.
    rewrite !wrap_wrap_l. f_equal. lia.
Qed.

Section Commute.

Context {ValueType : Type}.
Variable dflt : ValueType.
Implicit Types b : builder ValueType.

Lemma AddBudget_bump key threadid nelem b row :
  thread_rptr_ b !! threadid = Some row →
  AddBudget key threadid nelem b
  = Some (Builder (rptr_ b) (data_ b)
            (<[threadid := bump key nelem row]> (thread_rptr_ b))).
Proof. apply AddBudget_eq. Qed.

Lemma AddBudget_None key threadid nelem b :
  thread_rptr_ b !! threadid = None → AddBudget key threadid nelem b = None.
Proof. intros H. unfold AddBudget. by rewrite H. Qed.

Lemma AddBudget_comm key1 t1 nelem1 key2 t2 nelem2 b :
  AddBudget key1 t1 nelem1 b ≫= AddBudget key2 t2 nelem2
  = AddBudget key2 t2 nelem2 b ≫= AddBudget key1 t1 nelem1.
Proof.
  destruct (thread_rptr_ b !! t1) as [r1|] eqn:H1;
    destruct (thread_rptr_ b !! t2) as [r2|] eqn:H2.
  - pose proof (lookup_lt_Some _ _ _ H1) as Hl1.
    pose proof (lookup_lt_Some _ _ _ H2) as Hl2.
    rewrite (AddBudget_bump _ _ _ _ _ H1), (AddBudget_bump _ _ _ _ _ H2).
    simpl. destruct (decide (t1 = t2)) as [->|Hne].
    + rewrite H1 in H2. injection H2 as <-.
      rewrite (AddBudget_bump key2 t2 nelem2 _ (bump key1 nelem1 r1));
        [|by apply list_lookup_insert_eq].
      rewrite (AddBudget_bump key1 t2 nelem1 _ (bump key2 nelem2 r1));
        [|by apply list_lookup_insert_eq].
      simpl. by rewrite !list_insert_insert_eq, bump_comm.
    + rewrite (AddBudget_bump key2 t2 nelem2 _ r2);
        [|simpl; by rewrite list_lookup_insert_ne].
      rewrite (AddBudget_bump key1 t1 nelem1 _ r1);
        [|simpl; by rewrite list_lookup_insert_ne].
      simpl. by rewrite list_insert_insert_ne.
  - rewrite (AddBudget_None key2 t2 nelem2 b H2).
    rewrite (AddBudget_bump _ _ _ _ _ H1). simpl.
    apply AddBudget_None. simpl.
    apply lookup_ge_None. rewrite length_insert. by apply lookup_ge_None.
  - rewrite (AddBudget_None key1 t1 nelem1 b H1).
    rewrite (AddBudget_bump _ _ _ _ _ H2). simpl. symmetry.
    apply AddBudget_None. simpl.
    apply lookup_ge_None. rewrite length_insert. by apply lookup_ge_None.
  - by rewrite !AddBudget_None.
Qed.

Lemma add_budgets_Permutation calls calls' b :
  calls ≡ₚ calls' → add_budgets calls b = add_budgets calls' b.
Proof.
  intros Hperm. revert b.
  induction Hperm as [|[[key t] n] l l' _ IH
                      |[[key1 t1] n1] [[key2 t2] n2] l| l1 l2 l3 _ IH1 _ IH2];
    intros b; simpl.
  - done.
  - destruct (AddBudget key t n b); simpl; [apply IH|done].
  - pose proof (AddBudget_comm key1 t1 n1 key2 t2 n2 b) as Hc.
    destruct (AddBudget key1 t1 n1 b) as [b1|],
             (AddBudget key2 t2 n2 b) as [b2|]; simpl in *;
      first [done | by rewrite Hc | by rewrite <-Hc].
  - by rewrite IH1.
Qed.

End Commute.

(** X6 (phase 2 in any order). The calls of [AddBudget] commute: two lists
    of calls that are permutations of each other leave the builder in the
    same state (the same rows, cell for cell, or both undefined), and so
    step 3 computes the same offsets and cursors after them. *)
Theorem budget_order_irrelevant {ValueType : Type} (dflt : ValueType)
    (calls calls' : list budget_call) (b : builder ValueType) :
  calls ≡ₚ calls' →
  add_budgets calls b = add_budgets calls' b
  ∧ add_budgets calls b ≫= InitStorage dflt
    = add_budgets calls' b ≫= InitStorage dflt.
Proof.
  intros H. by rewrite (add_budgets_Permutation calls calls' b H).
Qed.

Lemma budget_order_irrelevant_witness :
  add_budgets [(1, 0, 1%Z); (0, 0, 1%Z); (1, 1, 1%Z)]
    (InitBudget 0 2 (fresh (ValueType:=Z) []))
  = add_budgets [(0, 0, 1%Z); (1, 0, 1%Z); (1, 1, 1%Z)]
      (InitBudget 0 2 (fresh []))
  ∧ add_budgets [(1, 0, 1%Z); (0, 0, 1%Z); (1, 1, 1%Z)]
      (InitBudget 0 2 (fresh (ValueType:=Z) [])) ≫= InitStorage 0%Z
    = add_budgets [(0, 0, 1%Z); (1, 0, 1%Z); (1, 1, 1%Z)]
        (InitBudget 0 2 (fresh [])) ≫= InitStorage 0%Z.
Proof.
  apply (budget_order_irrelevant 0%Z). apply perm_swap.
Defined.

(** ** What step 3 does to the offsets that are there *)

(** X7 (growth of the segments). In append mode, on offsets that are
    non-decreasing values of the integer type and with a total that fits,
    step 3 moves the start of every segment that is there by the budgets
    of the keys below it and makes the segment longer by the budget of
    its key: the new [ptr[k]] is the old one plus the budgets of the keys
    below [k], and the new length of segment [k] is the old length plus
    the budgets of all the threads for [k]. *)
Theorem InitStorage_segment_growth {ValueType : Type} (dflt : ValueType)
    (b : builder ValueType) (k : nat) (lo hi : Z) :
  cells_in_range (rptr_ b) →
  nondecreasing (rptr_ b) →
  table_in_range (thread_rptr_ b) →
  fits (rptr_ b) (thread_rptr_ b) →
  rptr_ b !! k = Some lo →
  rptr_ b !! (k + 1) = Some hi →
  ∃ b3, InitStorage dflt b = Some b3
        ∧ rptr_ b3 !! k = Some (lo + cum (thread_rptr_ b) k)%Z
        ∧ rptr_ b3 !! (k + 1) = Some (hi + cum (thread_rptr_ b) (k + 1))%Z
        ∧ ((hi + cum (thread_rptr_ b) (k + 1)) - (lo + cum (thread_rptr_ b) k)
           = (hi - lo) + key_total (thread_rptr_ b) k)%Z.
Proof.
  intros Hr Hmono Hrows Hfits Hlo Hhi.
  assert (Hne : rptr_ b ≠ []) by (intros E; by rewrite E in Hlo).
  eexists. split; [apply InitStorage_eq; by left|]. simpl.
  rewrite !final_offsets_exact by done.
  rewrite !lookup_grow_rptr_old by (by eapply lookup_lt_Some).
  rewrite Hlo, Hhi. simpl.
  split; [|split].
  - f_equal. case_decide; [subst; simpl; lia|done].
  - by rewrite decide_False by lia.
  - replace (k + 1) with (S k) by lia. simpl. lia.
Qed.

Lemma InitStorage_segment_growth_witness :
  ∃ b3, InitStorage 0%Z appended = Some b3
        ∧ rptr_ b3 !! 0 = Some (0 + cum (thread_rptr_ appended) 0)%Z
        ∧ rptr_ b3 !! (0 + 1) = Some (1 + cum (thread_rptr_ appended) (0 + 1))%Z
        ∧ ((1 + cum (thread_rptr_ appended) (0 + 1))
           - (0 + cum (thread_rptr_ appended) 0)
           = (1 - 0) + key_total (thread_rptr_ appended) 0)%Z.
Proof.
  apply (InitStorage_segment_growth 0%Z appended 0 0%Z 1%Z).
  - apply appended_in_range.
  - apply appended_nondecreasing.
  - apply appended_in_range.
  - vm_compute. reflexivity.
  - reflexivity.
  - reflexivity.
Defined.

(** ** What a run of [Push] calls touches *)

Section Frame.

Context {ValueType : Type}.
Variable dflt : ValueType.
Implicit Types b : builder ValueType.
Implicit Types pushes : list (push_call ValueType).

Lemma Push_effect key v tid b b' :
  Push key v tid b = Some b' →
  ∃ trptr rp,
    thread_rptr_ b !! tid = Some trptr
    ∧ trptr !! key = Some rp
    ∧ Z.to_nat rp < length (data_ b)
    ∧ push_slot key tid b = Some (Z.to_nat rp)
    ∧ b' = Builder (rptr_ b) (<[Z.to_nat rp := v]> (data_ b))
             (<[tid := <[key := wrap (rp + 1)]> trptr]> (thread_rptr_ b)).
Proof.
  unfold Push, push_slot. intros H.
  destruct (thread_rptr_ b !! tid) as [trptr|] eqn:Ht; [|done]. simpl in *.
  destruct (trptr !! key) as [rp|] eqn:Hk; [|done]. simpl in *.
  case_decide; [|done]. injection H as <-. by exists trptr, rp.
Qed.

Lemma push_all_frame pushes : ∀ b b',
  push_all pushes b = Some b' →
  ∃ slots,
    push_slots pushes b = Some slots
    ∧ length slots = length pushes
    ∧ Forall (λ p, p < length (data_ b)) slots
    ∧ rptr_ b' = rptr_ b
    ∧ length (data_ b') = length (data_ b)
    ∧ (∀ t, length <$> thread_rptr_ b' !! t = length <$> thread_rptr_ b !! t)
    ∧ (∀ i, i ∉ slots → data_ b' !! i = data_ b !! i)
    ∧ (∀ t, t ∉ callers pushes → thread_rptr_ b' !! t = thread_rptr_ b !! t).
Proof.
  induction pushes as [|[[key v] tid] rest IH]; intros b b' H; simpl in H.
  - injection H as <-. exists []. repeat split; done.
  - destruct (Push key v tid b) as [b1|] eqn:HP; [|done]. simpl in H.
    destruct (Push_effect _ _ _ _ _ HP) as (trptr & rp & Ht & Hk & Hin & Hs & ->).
    destruct (IH _ _ H)
      as (slots & Hslots & Hlen & Hbound & Hrptr & Hdl & Hshape & Hdata & Hrows).
    simpl in *. exists (Z.to_nat rp :: slots).
    rewrite Hs, HP. simpl. rewrite Hslots. simpl.
    rewrite length_insert in Hdl, Hbound.
    split; [done|]. split; [by rewrite Hlen|]. split; [by constructor|].
    split; [done|]. split; [done|]. split; [|split].
    + intros t. rewrite Hshape, list_lookup_insert.
      case_decide as Hd; [|done]. destruct Hd as [<- _].
      rewrite Ht. simpl. by rewrite length_insert.
    + intros i Hi. apply not_elem_of_cons in Hi as [Hne Hi].
      rewrite (Hdata i Hi). by apply list_lookup_insert_ne.
    + intros t Hcall. unfold callers in Hcall. simpl in Hcall.
      apply not_elem_of_cons in Hcall as [Hne Hcall].
      rewrite (Hrows t Hcall). by apply list_lookup_insert_ne.
Qed.

End Frame.

(** X8 (frame of phase 4). A run of [Push] calls that stays in bounds
    never changes [ptr], the length of [data] or the shape of the table;
    every call writes below the length of [data]; a cell of [data] that no
    call writes keeps its value, and the row of a thread that makes no
    call is left as it is. *)
Theorem Push_run_frame {ValueType : Type}
    (pushes : list (push_call ValueType)) (b b' : builder ValueType) :
  push_all pushes b = Some b' →
  ∃ slots,
    push_slots pushes b = Some slots
    ∧ length slots = length pushes
    ∧ Forall (λ p, p < length (data_ b)) slots
    ∧ rptr_ b' = rptr_ b
    ∧ length (data_ b') = length (data_ b)
    ∧ (∀ t, length <$> thread_rptr_ b' !! t = length <$> thread_rptr_ b !! t)
    ∧ (∀ i, i ∉ slots → data_ b' !! i = data_ b !! i)
    ∧ (∀ t, t ∉ callers pushes → thread_rptr_ b' !! t = thread_rptr_ b !! t).
Proof. apply push_all_frame. Qed.

Lemma Push_run_frame_witness :
  ∃ slots,
    push_slots example_pushes (Builder [0; 1; 3]%Z [0; 0; 0]%Z [[0; 1]; [1; 2]]%Z)
    = Some slots
    ∧ length slots = length example_pushes
    ∧ Forall (λ p, p < 3) slots
    ∧ rptr_ (Builder [0; 1; 3]%Z [11; 10; 20]%Z [[1; 2]; [1; 3]]%Z) = [0; 1; 3]%Z
    ∧ length [11; 10; 20]%Z = 3
    ∧ (∀ t, length <$> [[1; 2]; [1; 3]]%Z !! t
            = length <$> [[0; 1]; [1; 2]]%Z !! t)
    ∧ (∀ i, i ∉ slots → [11; 10; 20]%Z !! i = [0; 0; 0]%Z !! i)
    ∧ (∀ t, t ∉ callers example_pushes →
            [[1; 2]; [1; 3]]%Z !! t = [[0; 1]; [1; 2]]%Z !! t).
Proof.
  apply (Push_run_frame example_pushes
           (Builder [0; 1; 3]%Z [0; 0; 0]%Z [[0; 1]; [1; 2]]%Z)
           (Builder [0; 1; 3]%Z [11; 10; 20]%Z [[1; 2]; [1; 3]]%Z)).
  vm_compute. reflexivity.
Defined.



(** ** The end of a matched build *)

Lemma cum_locate rows n (q : Z) :
  table_in_range rows → (0 ≤ q < cum rows n)%Z →
  ∃ k, k < n ∧ (cum rows k ≤ q < cum rows (S k))%Z.
Proof.
  intros Hrows. induction n as [|n IH]; intros Hq; simpl in Hq; [lia|].
  destruct (decide (q < cum rows n)%Z) as [Hlt|Hge].
  - destruct IH as (k & Hk & Hc); [lia|]. exists k. split; [lia|done].
  - exists n. split; [lia|]. simpl. lia.
Qed.

(** Every cell of the part of [data] that a build adds belongs to the
    range of one pair (thread, key). *)
Lemma slot_locate rows (q : Z) :
  table_in_range rows → (0 ≤ q < total rows)%Z →
  ∃ t k j, (Z.of_nat j < budget rows t k)%Z
           ∧ q = (start rows t k + Z.of_nat j)%Z.
Proof.
  intros Hrows Hq. unfold total in Hq.
  destruct (cum_locate rows (width rows) q Hrows Hq) as (k & _ & Hk).
  simpl in Hk. unfold key_total in Hk.
  destruct (sumZ_locate (column rows k) (q - cum rows k))
    as (t & _ & Ht); [by apply column_nonneg|lia|].
  rewrite sumZ_take_S, <-budget_column in Ht.
  exists t, k, (Z.to_nat (q - cum rows k - sumZ (take t (column rows k)))).
  unfold start. lia.
Qed.

Section MatchedEnd.

Context {ValueType : Type}.
Variable dflt : ValueType.
Implicit Types b : builder ValueType.
Implicit Types pushes : list (push_call ValueType).

Lemma cursor_cursors_after rows base pushes t k c :
  table_in_range rows → (0 ≤ base)%Z → (base + total rows < modulus)%Z →
  (Z.of_nat (length (pushed t k pushes)) ≤ budget rows t k)%Z →
  cursors_after rows base pushes !! t ≫= (.!! k) = Some c →
  c = (base + start rows t k + Z.of_nat (length (pushed t k pushes)))%Z
  ∧ ∃ row c0, rows !! t = Some row ∧ row !! k = Some c0.
Proof.
  intros Hrows Hbase Hfits Hle Hc. unfold cursors_after in Hc.
  rewrite list_lookup_imap in Hc.
  destruct (rows !! t) as [row|] eqn:Ht; [|done]. simpl in Hc.
  rewrite list_lookup_imap in Hc.
  destruct (row !! k) as [c0|] eqn:Hk; [|done]. simpl in Hc.
  injection Hc as <-. split; [|by eexists _, _].
  by apply cursor_exact.
Qed.

End MatchedEnd.

(** X10 (cursors at the end). In a build whose pushes match the budgets,
    every cursor ends exactly its budget after the place step 3 gave it,
    within [data]: the table then holds the ends of the ranges, not
    budgets. *)
Theorem cursors_at_end {ValueType : Type} (dflt : ValueType)
    (pushes : list (push_call ValueType)) (b2 : builder ValueType) :
  cells_in_range (rptr_ b2) →
  table_in_range (thread_rptr_ b2) →
  fits (rptr_ b2) (thread_rptr_ b2) →
  rptr_ b2 ≠ [] ∨ thread_rptr_ b2 ≠ [] →
  conserved (thread_rptr_ b2) pushes →
  ∃ b3 b4,
    InitStorage dflt b2 = Some b3
    ∧ push_all pushes b3 = Some b4
    ∧ ∀ t k c, cursor b3 t k = Some c →
        cursor b4 t k = Some (c + budget (thread_rptr_ b2) t k)%Z
        ∧ (c + budget (thread_rptr_ b2) t k ≤ Z.of_nat (length (data_ b4)))%Z.
Proof.
  intros Hr Hrows Hfits Hne Hcons.
  destruct (InitStorage_filled dflt b2 Hr Hrows Hfits Hne)
    as (b3 & HI & _ & _ & Hcur3 & _).
  destruct (matched_build dflt b2 pushes Hr Hrows Hfits Hne Hcons)
    as (b3' & b4 & slots & HI' & Hall & _ & _ & _ & Hfill & _).
  rewrite HI in HI'. injection HI' as <-.
  pose proof (base_in_range _ Hr) as [Hbase _].
  destruct Hfill as (Hcur4 & Hlen & _).
  exists b3, b4. split; [done|]. split; [done|].
  intros t k c Hc. unfold cursor in *. rewrite Hcur3 in Hc.
  pose proof (budget_nonneg (thread_rptr_ b2) t k Hrows) as Hb.
  destruct (cursor_cursors_after _ _ [] t k c Hrows Hbase Hfits
              ltac:(simpl; lia) Hc) as (-> & row & c0 & Ht & Hk).
  simpl. rewrite Hcur4, Hlen. unfold cursors_after.
  rewrite list_lookup_imap, Ht. simpl. rewrite list_lookup_imap, Hk. simpl.
  rewrite (Hcons t k).
  pose proof (start_end_le_total (thread_rptr_ b2) t k Hrows) as Hend.
  pose proof (start_nonneg (thread_rptr_ b2) t k Hrows) as Hs.
  split; [|lia]. f_equal.
  rewrite wrap_small; [lia|]. unfold fits, in_range in *. lia.
Qed.

Lemma cursors_at_end_witness :
  ∃ b3 b4,
    InitStorage 0%Z (Builder [] [] [[1; 1]; [0; 1]]%Z) = Some b3
    ∧ push_all example_pushes b3 = Some b4
    ∧ ∀ t k c, cursor b3 t k = Some c →
        cursor b4 t k = Some (c + budget [[1; 1]; [0; 1]] t k)%Z
        ∧ (c + budget [[1; 1]; [0; 1]] t k ≤ Z.of_nat (length (data_ b4)))%Z.
Proof.
  apply (cursors_at_end 0%Z example_pushes (Builder [] [] [[1; 1]; [0; 1]]%Z)).
  - constructor.
  - repeat constructor; by compute.
  - vm_compute. reflexivity.
  - right. discriminate.
  - intros [|[|t]] [|[|k]]; vm_compute; reflexivity.
Defined.

(** X11 (one push too many). After a build whose pushes match the
    budgets, one more [Push], whatever its thread and key, is either out
    of bounds or overwrites a value that another pair (thread, key) had
    pushed: it never finds a free cell. *)
Theorem one_push_too_many {ValueType : Type} (dflt : ValueType)
    (pushes : list (push_call ValueType)) (b2 : builder ValueType)
    (key : nat) (v : ValueType) (tid : nat) :
  cells_in_range (rptr_ b2) →
  table_in_range (thread_rptr_ b2) →
  fits (rptr_ b2) (thread_rptr_ b2) →
  rptr_ b2 ≠ [] ∨ thread_rptr_ b2 ≠ [] →
  conserved (thread_rptr_ b2) pushes →
  ∃ b3 b4,
    InitStorage dflt b2 = Some b3
    ∧ push_all pushes b3 = Some b4
    ∧ (Push key v tid b4 = None
       ∨ ∃ b5 p t' k' j' v',
           Push key v tid b4 = Some b5
           ∧ push_slot key tid b4 = Some p
           ∧ (t', k') ≠ (tid, key)
           ∧ pushed t' k' pushes !! j' = Some v'
           ∧ data_ b4 !! p = Some v'
           ∧ data_ b5 !! p = Some v).
Proof.
  intros Hr Hrows Hfits Hne Hcons.
  destruct (matched_build dflt b2 pushes Hr Hrows Hfits Hne Hcons)
    as (b3 & b4 & slots & HI & Hall & _ & _ & _ & Hfill & _).
  pose proof (base_in_range _ Hr) as [Hbase _].
  set (rows := thread_rptr_ b2) in *.
  set (base := default 0%Z (back (rptr_ b2))) in *.
  destruct Hfill as (Hcur & Hlen & Hdata).
  exists b3, b4. split; [done|]. split; [done|].
  destruct (Push key v tid b4) as [b5|] eqn:HP; [right|by left].
  destruct (Push_effect _ _ _ _ _ HP) as (trptr & rp & Ht & Hk & Hin & Hs & ->).
  assert (Hc : cursors_after rows base pushes !! tid ≫= (.!! key) = Some rp).
  { rewrite <-Hcur, Ht. simpl. done. }
  destruct (cursor_cursors_after rows base pushes tid key rp Hrows Hbase Hfits
              ltac:(rewrite (Hcons tid key); lia) Hc) as (Hrp & _).
  rewrite (Hcons tid key) in Hrp.
  pose proof (start_nonneg rows tid key Hrows) as Hs0.
  pose proof (budget_nonneg rows tid key Hrows) as Hb0.
  rewrite Hlen in Hin.
  destruct (slot_locate rows (start rows tid key + budget rows tid key) Hrows)
    as (t' & k' & j' & Hj' & Hq); [lia|].
  destruct (lookup_lt_is_Some_2 (pushed t' k' pushes) j') as [v' Hv'].
  { pose proof (Hcons t' k'). lia. }
  eexists _, (Z.to_nat rp), t', k', j', v'.
  split; [done|]. split; [done|]. split.
  { intros [= -> ->]. lia. }
  split; [done|]. split.
  - rewrite <-(Hdata t' k' j' v' Hv'). f_equal. unfold slot_of. lia.
  - simpl. apply list_lookup_insert_eq. by rewrite Hlen.
Qed.

Lemma one_push_too_many_witness :
  ∃ b3 b4,
    InitStorage 0%Z (Builder [] [] [[1; 1]; [0; 1]]%Z) = Some b3
    ∧ push_all example_pushes b3 = Some b4
    ∧ (Push 0 7%Z 0 b4 = None
       ∨ ∃ b5 p t' k' j' v',
           Push 0 7%Z 0 b4 = Some b5
           ∧ push_slot 0 0 b4 = Some p
           ∧ (t', k') ≠ (0, 0)
           ∧ pushed t' k' example_pushes !! j' = Some v'
           ∧ data_ b4 !! p = Some v'
           ∧ data_ b5 !! p = Some 7%Z).
Proof.
  apply (one_push_too_many 0%Z example_pushes
           (Builder [] [] [[1; 1]; [0; 1]]%Z) 0 7%Z 0).
  - constructor.
  - repeat constructor; by compute.
  - vm_compute. reflexivity.
  - right. discriminate.
  - intros [|[|t]] [|[|k]]; vm_compute; reflexivity.
Defined.

(** ** Append mode with new keys *)

Lemma cum_zero rows j :
  (∀ i, i < j → key_total rows i = 0%Z) → cum rows j = 0%Z.
Proof.
  induction j as [|j IH]; intros H; [done|].
  simpl. rewrite IH, H; [done|lia|]. intros i Hi. apply H. lia.
Qed.

Lemma old_offsets_kept rptr rows j :
  cells_in_range rptr →
  (∀ t k, k + 1 < length rptr → budget rows t k = 0%Z) →
  j < length rptr →
  final_offsets rptr rows !! j = rptr !! j.
Proof.
  intros Hr Hnew Hj. rewrite lookup_final_offsets.
  rewrite lookup_grow_rptr_old by done.
  destruct (lookup_lt_is_Some_2 rptr j Hj) as [p Hp]. rewrite Hp. simpl.
  f_equal. case_decide; [done|].
  rewrite cum_zero, Z.add_0_r.
  - apply wrap_small. by eapply Forall_lookup_1.
  - intros i Hi. apply key_total_zero. intros t. apply Hnew. lia.
Qed.

Section Append.

Context {ValueType : Type}.
Variable dflt : ValueType.
Implicit Types b : builder ValueType.
Implicit Types pushes : list (push_call ValueType).
Implicit Types data : list ValueType.

Lemma slice_take lo hi n data :
  hi ≤ n → slice lo hi (take n data) = slice lo hi data.
Proof.
  intros Hn. unfold slice. apply list_eq. intros i.
  rewrite !lookup_take. case_decide; [|done].
  rewrite !lookup_drop. apply lookup_take_lt. lia.
Qed.

End Append.

(** X12 (append with new keys). On the arrays of a previous build
    ([ptr] non-decreasing, [ptr.back() = len(data)]), a build whose
    budgets are all for keys beyond those of [ptr], whose pushes match
    the budgets and whose final length fits the integer type runs to the
    end and leaves what was there in place: the old offsets and the old
    values are unchanged, so every old segment is what it was, and every
    new key gets as its segment the values pushed for it, thread after
    thread in the order of the calls of each thread. *)
Theorem append_new_keys {ValueType : Type} (dflt : ValueType)
    (nkeys nthread : nat) (budgets : list budget_call)
    (pushes : list (push_call ValueType)) (b b2 : builder ValueType) :
  cells_in_range (rptr_ b) →
  nondecreasing (rptr_ b) →
  back (rptr_ b) = Some (Z.of_nat (length (data_ b))) →
  add_budgets budgets (InitBudget nkeys nthread b) = Some b2 →
  (∀ t k, k + 1 < length (rptr_ b) → budget (thread_rptr_ b2) t k = 0%Z) →
  fits (rptr_ b) (thread_rptr_ b2) →
  conserved (thread_rptr_ b2) pushes →
  ∃ b4,
    build dflt nkeys nthread budgets pushes b = Some b4
    ∧ (∀ j, j < length (rptr_ b) → rptr_ b4 !! j = rptr_ b !! j)
    ∧ take (length (data_ b)) (data_ b4) = data_ b
    ∧ (∀ k, k + 1 < length (rptr_ b) → segment b4 k = segment b k)
    ∧ (∀ k, length (rptr_ b) ≤ k + 1 → k + 1 < length (rptr_ b4) →
         segment b4 k = Some (concat (blocks nthread k pushes))).
Proof.
  intros Hr Hmono Hback H2 Hnew Hfits Hcons.
  destruct (phase2_state _ _ _ _ _ H2) as (Hrptr & Hdata2 & Hlen2 & Hrows).
  assert (Hne : rptr_ b ≠ []) by (intros E; by rewrite E in Hback).
  assert (Hne2 : rptr_ b2 ≠ [] ∨ thread_rptr_ b2 ≠ [])
    by (left; by rewrite Hrptr).
  rewrite <-Hrptr in Hr, Hfits.
  destruct (matched_build dflt b2 pushes Hr Hrows Hfits Hne2 Hcons)
    as (b3 & b4 & slots & HI & Hall & Hslots & Hptr & Hd3 & Hfill & Hsl & Hpos).
  rewrite Hrptr, Hdata2 in *.
  set (rows := thread_rptr_ b2) in *.
  assert (Hbase : default 0%Z (back (rptr_ b)) = Z.of_nat (length (data_ b)))
    by (by rewrite Hback).
  rewrite Hbase in *.
  pose proof (total_nonneg rows Hrows) as Htot.
  (* offsets and values that were there *)
  assert (Hold : ∀ j, j < length (rptr_ b) → rptr_ b4 !! j = rptr_ b !! j).
  { intros j Hj. rewrite Hptr. by apply old_offsets_kept. }
  assert (Hkeep : ∀ i, i < length (data_ b) → data_ b4 !! i = data_ b !! i).
  { intros i Hi.
    destruct (push_all_frame pushes b3 b4 Hall)
      as (slots' & Hslots' & _ & _ & _ & _ & _ & Hframe & _).
    rewrite Hslots in Hslots'. injection Hslots' as <-.
    rewrite Hframe.
    - rewrite Hd3. apply lookup_resize; lia.
    - intros Hin. apply list_elem_of_lookup_1 in Hin as [n Hn].
      destruct (lookup_lt_is_Some_2 pushes n) as [[[key v] tid] Hcall].
      { rewrite <-Hsl. by eapply lookup_lt_Some. }
      rewrite (Hpos n key v tid Hcall) in Hn. injection Hn as Hn.
      pose proof (start_nonneg rows tid key Hrows).
      unfold slot_of in Hn. lia. }
  assert (Htake : take (length (data_ b)) (data_ b4) = data_ b).
  { apply list_eq. intros i. rewrite lookup_take. case_decide.
    - by apply Hkeep.
    - symmetry. apply lookup_ge_None. lia. }
  exists b4. split; [unfold build; rewrite H2; simpl; by rewrite HI|].
  split; [done|]. split; [done|]. split.
  - intros k Hk. unfold segment. rewrite !Hold by lia.
    destruct (lookup_lt_is_Some_2 (rptr_ b) k ltac:(lia)) as [lo Hlo].
    destruct (lookup_lt_is_Some_2 (rptr_ b) (S k) ltac:(lia)) as [hi Hhi].
    rewrite Hlo, Hhi. simpl. f_equal.
    assert (Hle : (hi ≤ Z.of_nat (length (data_ b)))%Z).
    { apply (Hmono (S k) (length (rptr_ b) - 1) hi _ ltac:(lia) Hhi).
      rewrite back_Some_default by done. by rewrite Hbase. }
    trans (slice (Z.to_nat lo) (Z.to_nat hi)
             (take (length (data_ b)) (data_ b4))).
    + symmetry. apply slice_take. lia.
    + by rewrite Htake.
  - intros k Hk Hk4. unfold segment. rewrite Hptr in Hk4 |- *.
    rewrite (new_key_offset (rptr_ b) rows k) by (try done; lia).
    rewrite (new_key_offset (rptr_ b) rows (S k)) by (try done; lia).
    simpl. rewrite Hbase. f_equal. rewrite <-Hlen2.
    apply segment_filled; [done|lia|done|done].
Qed.

Lemma append_new_keys_witness :
  ∃ b4,
    build 0%Z 0 1 [(2, 0, 1%Z)] [(2, 300%Z, 0)] two_keys = Some b4
    ∧ (∀ j, j < length (rptr_ two_keys) → rptr_ b4 !! j = rptr_ two_keys !! j)
    ∧ take (length (data_ two_keys)) (data_ b4) = data_ two_keys
    ∧ (∀ k, k + 1 < length (rptr_ two_keys) → segment b4 k = segment two_keys k)
    ∧ (∀ k, length (rptr_ two_keys) ≤ k + 1 → k + 1 < length (rptr_ b4) →
         segment b4 k = Some (concat (blocks 1 k [(2, 300%Z, 0)]))).
Proof.
  apply (append_new_keys 0%Z 0 1 [(2, 0, 1%Z)] [(2, 300%Z, 0)] two_keys
           (Builder [0; 1; 2]%Z [100; 200]%Z [[0; 0; 1]]%Z)).
  - repeat constructor; by compute.
  - intros [|[|[|i]]] [|[|[|j]]] x y Hij Hx Hy; simpl in *; simplify_eq; lia.
  - reflexivity.
  - vm_compute. reflexivity.
  - intros [|t] [|[|k]] Hk; simpl in Hk; try lia; vm_compute; reflexivity.
  - vm_compute. reflexivity.
  - intros [|t] [|[|[|k]]]; vm_compute; reflexivity.
Defined.

(** ** The whole of [data] *)

Section AllValues.

Context {ValueType : Type}.
Implicit Types calls pushes : list (push_call ValueType).

Lemma concat_fmap_Permutation (f g : nat → list ValueType) (l : list nat) :
  (∀ k, f k ≡ₚ g k) → concat (f <$> l) ≡ₚ concat (g <$> l).
Proof.
  intros H. induction l as [|k l IH]; [done|].
  rewrite !fmap_cons, !concat_cons. by rewrite (H k), IH.
Qed.

(** The values sorted by key are the values. *)
Lemma pushed_keys_values n calls :
  Forall (λ c : push_call ValueType, c.1.1 < n) calls →
  concat ((λ k, pushed_key k calls) <$> seq 0 n) ≡ₚ values calls.
Proof.
  induction 1 as [|[[key v] tid] rest Hkey _ IH].
  - apply Permutation_refl'. apply (concat_fmap_nil (ValueType:=ValueType)).
  - simpl in Hkey. unfold values. rewrite fmap_cons. simpl.
    fold (values rest). rewrite <-IH.
    apply concat_blocks_insert with (tid := key).
    + lia.
    + simpl. by rewrite decide_True.
    + intros k Hk. simpl. by rewrite decide_False.
Qed.

Lemma conserved_keys rows calls :
  conserved rows calls →
  Forall (λ c : push_call ValueType, c.1.1 < width rows) calls.
Proof.
  intros Hcons. apply Forall_forall. intros [[key v] tid] Hin. simpl.
  destruct (conserved_call rows calls key v tid Hcons Hin) as (row & c & Ht & Hc).
  apply lookup_lt_Some in Hc. apply length_le_width in Ht. lia.
Qed.

Lemma grouped_values nthread nkeys calls :
  Forall (λ c : push_call ValueType, c.2 < nthread) calls →
  Forall (λ c : push_call ValueType, c.1.1 < nkeys) calls →
  grouped nthread nkeys calls ≡ₚ values calls.
Proof.
  intros Ht Hk. unfold grouped. rewrite <-(pushed_keys_values nkeys calls Hk).
  apply concat_fmap_Permutation. intros k. symmetry.
  by apply pushed_key_blocks.
Qed.

End AllValues.

(** X13 (nothing lost, nothing added). In a fresh build with at least one
    thread whose pushes match the budgets and whose total fits the integer
    type, the final [data] is a permutation of the values pushed: it has
    one cell for each call of [Push] and no other. *)
Theorem data_is_the_values {ValueType : Type} (dflt : ValueType)
    (nkeys nthread : nat) (budgets : list budget_call)
    (pushes : list (push_call ValueType)) (rows0 : list (list Z))
    (b2 : builder ValueType) :
  0 < nthread →
  add_budgets budgets (InitBudget nkeys nthread (fresh rows0)) = Some b2 →
  conserved (thread_rptr_ b2) pushes →
  (total (thread_rptr_ b2) < modulus)%Z →
  ∃ b4, build dflt nkeys nthread budgets pushes (fresh rows0) = Some b4
        ∧ data_ b4 ≡ₚ values pushes
        ∧ length (data_ b4) = length pushes.
Proof.
  intros Hn H2 Hcons Htot.
  pose proof (fresh_build_closed dflt nkeys nthread budgets pushes rows0 b2
                Hn H2 Hcons Htot) as Hb.
  destruct (phase2_state _ _ _ _ _ H2) as (_ & _ & Hlen & _).
  eexists. split; [exact Hb|]. simpl.
  assert (Hperm : grouped nthread (width (thread_rptr_ b2)) pushes
                  ≡ₚ values pushes).
  { apply grouped_values.
    - rewrite <-Hlen. by apply conserved_threads.
    - by apply conserved_keys. }
  split; [done|]. rewrite Hperm. unfold values. by rewrite length_fmap.
Qed.

Lemma data_is_the_values_witness :
  ∃ b4, build 0%Z 0 2 example_budgets example_pushes (fresh []) = Some b4
        ∧ data_ b4 ≡ₚ values example_pushes
        ∧ length (data_ b4) = length example_pushes.
Proof.
  apply (data_is_the_values 0%Z 0 2 example_budgets example_pushes []
           (Builder [] [] [[1; 1]; [0; 1]]%Z)).
  - lia.
  - vm_compute. reflexivity.
  - intros [|[|t]] [|[|k]]; vm_compute; reflexivity.
  - vm_compute. reflexivity.
Defined.

(** X14 (the table of the constructor). A build does not depend on what
    the table of counters holds when it starts: with the builder's own
    empty table or with a table supplied by the caller, whatever is in
    it, the four phases give the same result. *)
Theorem build_ignores_table {ValueType : Type} (dflt : ValueType)
    (nkeys nthread : nat) (budgets : list budget_call)
    (pushes : list (push_call ValueType))
    (rptr : list Z) (data : list ValueType) (rows0 : list (list Z)) :
  build dflt nkeys nthread budgets pushes (Builder rptr data rows0)
  = build dflt nkeys nthread budgets pushes (Builder rptr data []).
Proof.
  unfold build.
  assert (H : InitBudget nkeys nthread (Builder rptr data rows0)
              = InitBudget nkeys nthread (Builder rptr data [])).
  { pose proof (InitBudget_rows nkeys nthread (Builder rptr data rows0)) as H1.
    pose proof (InitBudget_rows nkeys nthread (Builder rptr data [])) as H2.
    unfold InitBudget in *. simpl in *. by rewrite H1, H2. }
  by rewrite H.
Qed.
